(** * The sequence custom backend (src/custom/sequence/sequence.cc)

    A shallow embedding of the accumulator backend: the chunked input
    assembly [Context::GetInputTensor], the per-slot state machine and the
    batch loop of [Context::Execute], together with the properties of the
    specification that concern them.

    Conventions.
    - [int32_t] values are integers of [Z] kept in the signed 32-bit range by
      [wrap_int32]; [uint64_t] byte counts are integers of [Z] reduced modulo
      2^64 where the source does arithmetic on them.
    - Tensors are byte lists; an [int32_t*] view of a byte buffer decodes
      four bytes, least significant first.
    - A read outside a buffer has no defined result in C++: the functions
      that index return [option], and [None] stands for such a read. *)

From Stdlib Require Import ZArith Lia.
From Stdlib.Strings Require Import Byte.
From stdpp Require Import base option list strings gmap.

Local Open Scope Z_scope.

(** ** Machine integers and bytes *)

Definition wrap_int32 (z : Z) : Z := (z + 2 ^ 31) mod 2 ^ 32 - 2 ^ 31.

Definition wrap_uint64 (z : Z) : Z := z mod 2 ^ 64.

Definition byte_val (b : byte) : Z := Z.of_N (Byte.to_N b).

Definition byte_of_Z (z : Z) : byte :=
  default Byte.x00 (Byte.of_N (Z.to_N (z mod 256))).

(** [reinterpret_cast<int32_t*>] over four consecutive bytes. *)
Definition int32_of_bytes (b0 b1 b2 b3 : byte) : Z :=
  wrap_int32 (byte_val b0 + 2 ^ 8 * byte_val b1
              + 2 ^ 16 * byte_val b2 + 2 ^ 24 * byte_val b3).

(** The four bytes [memcpy] takes from the address of an [int32_t]. *)
Definition bytes_of_int32 (z : Z) : list byte :=
  [ byte_of_Z z; byte_of_Z (z / 2 ^ 8);
    byte_of_Z (z / 2 ^ 16); byte_of_Z (z / 2 ^ 24) ].

(** [p[e]] for [p = reinterpret_cast<int32_t*>(&buf[0])]. *)
Definition read_int32 (buf : list byte) (e : Z) : option Z :=
  if e <? 0 then None
  else match drop (Z.to_nat (4 * e)) buf with
       | b0 :: b1 :: b2 :: b3 :: _ => Some (int32_of_bytes b0 b1 b2 b3)
       | _ => None
       end.

(** The whole buffer seen as a vector of [int32_t]. *)
Fixpoint decode_int32s (buf : list byte) : list Z :=
  match buf with
  | b0 :: b1 :: b2 :: b3 :: rest =>
      int32_of_bytes b0 b1 b2 b3 :: decode_int32s rest
  | _ => []
  end.

Definition sum_list (l : list Z) : Z := foldr Z.add 0 l.

(** ** Error codes *)

(** Modelled from the spec: the numbers behind the error codes.
    [RegisterError] and [ErrorCodes] belong to the custom-backend SDK
    (src/custom/sdk/custom_instance.h), of which the backend has only the
    calls.  [ErrorCodes::Success] is 0, as the comparison
    [payload.error_code == 0] of [Execute] presumes, and every registered
    code is a fresh value different from it: the codes are kept symbolic,
    one constructor for each error the backend registers. *)
Inductive ErrorCode : Set :=
| Success
| kGpuNotSupported
| kSequenceBatcher
| kModelControl
| kInput
| kOutput
| kInputName
| kOutputName
| kInputOutputDataType
| kInputContents
| kInputSize
| kOutputBuffer
| kBatchTooBig
| kTimesteps.

#[global] Instance ErrorCode_eq_dec : EqDecision ErrorCode.
Proof. solve_decision. Defined.

(** ** The pull source *)

(** Modelled from the spec: the answers of the callback
    [CustomGetNextInputFn_t], which the host supplies.  One call answers
    with a failure, with the null pointer (no further data for this input),
    or with a chunk of bytes.  The state behind [input_context] is, for
    every input name, the answers the host still has to give; a source whose
    answers are used up keeps answering with the null pointer. *)
Inductive pull : Type :=
| PullFail
| PullNull
| PullChunk (content : list byte).

(** Modelled from the spec: [GetDataTypeByteSize(TYPE_INT32)], defined in
    src/core/model_config.h.  The elements are signed 32-bit integers, four
    bytes wide. *)
Definition batch1_byte_size : Z := 4.

(** ** Context::GetInputTensor

    [src] is the state of the pull source for the input asked for,
    [total_content_byte_size] the running count and [input] the vector the
    chunks are copied to.  The result is the returned code, the vector and
    the state the source is left in.  The size passed to the callback,
    [expected_byte_size - total_content_byte_size], is the most the caller
    wishes to get; the callback overwrites it with the size of the chunk.
    For every chunk the loop first writes a line to the standard output
    (lines 209-210), and for it reads
    [reinterpret_cast<const int32_t*>(content)[0]], four bytes at the start
    of the chunk, before it looks at the size: on a chunk of fewer than four
    bytes this is a read outside the chunk, and the call has no defined
    result. *)
Fixpoint GetInputTensor_loop (src : list pull) (expected_byte_size : Z)
    (total_content_byte_size : Z) (input : list byte)
  : option (ErrorCode * list byte * list pull) :=
  match src with
  | [] =>
      Some (if decide (total_content_byte_size = expected_byte_size)
            then Success else kInputSize, input, [])
  | PullFail :: src' => Some (kInputContents, input, src')
  | PullNull :: src' =>
      Some (if decide (total_content_byte_size = expected_byte_size)
            then Success else kInputSize, input, src')
  | PullChunk content :: src' =>
      _ ← read_int32 content 0;
      let content_byte_size := Z.of_nat (length content) in
      let total_content_byte_size :=
        wrap_uint64 (total_content_byte_size + content_byte_size) in
      if expected_byte_size <? total_content_byte_size
      then Some (kInputSize, input, src')
      else GetInputTensor_loop src' expected_byte_size
             total_content_byte_size (input ++ content)
  end.

Definition GetInputTensor (src : list pull) (expected_byte_size : Z)
    (input : list byte) : option (ErrorCode * list byte * list pull) :=
  GetInputTensor_loop src expected_byte_size 0 input.

(** ** Payloads *)

(** Modelled from the spec: the answers of the callback
    [CustomGetOutputFn_t], which the host supplies: failure, success with a
    null buffer, or success with a buffer to write to. *)
Inductive OutputAnswer : Set :=
| OutputFail
| OutputNull
| OutputBuffer.

Record OutputRequest : Type := {
  req_name : string;
  req_shape : list Z;
  req_byte_size : Z }.

(** The state behind [output_context]: the answer the host gives, the
    requests received so far and the bytes copied to the buffer, if any. *)
Record OutputContext : Type := {
  out_answer : OutputAnswer;
  out_requests : list OutputRequest;
  out_written : option (list byte) }.

(** Modelled from the spec: the struct [CustomPayload], declared by the SDK
    (src/custom/custom.h), with the fields [Execute] uses.  The arrays of
    the struct are lists: [input_cnt] is the length of [input_names],
    [input_shape_dims] lists the dimensions of each input and [output_cnt]
    is the length of [required_output_names]. *)
Record CustomPayload : Type := {
  batch_size : Z;
  input_names : list string;
  input_shape_dims : list (list Z);
  required_output_names : list string;
  input_context : gmap string (list pull);
  output_context : OutputContext;
  error_code : ErrorCode }.

Definition set_error_code (payload : CustomPayload) (err : ErrorCode)
  : CustomPayload :=
  {| batch_size := batch_size payload;
     input_names := input_names payload;
     input_shape_dims := input_shape_dims payload;
     required_output_names := required_output_names payload;
     input_context := input_context payload;
     output_context := output_context payload;
     error_code := err |}.

Definition set_input_context (payload : CustomPayload)
    (ictx : gmap string (list pull)) : CustomPayload :=
  {| batch_size := batch_size payload;
     input_names := input_names payload;
     input_shape_dims := input_shape_dims payload;
     required_output_names := required_output_names payload;
     input_context := ictx;
     output_context := output_context payload;
     error_code := error_code payload |}.

Definition set_output_context (payload : CustomPayload)
    (octx : OutputContext) : CustomPayload :=
  {| batch_size := batch_size payload;
     input_names := input_names payload;
     input_shape_dims := input_shape_dims payload;
     required_output_names := required_output_names payload;
     input_context := input_context payload;
     output_context := octx;
     error_code := error_code payload |}.

(** The answers the source of [payload] still holds for input [name]. *)
Definition input_source (payload : CustomPayload) (name : string)
  : list pull :=
  default [] (input_context payload !! name).

(** The payload once [name] has been pulled down to [src]. *)
Definition pulled (payload : CustomPayload) (name : string)
    (src : list pull) : CustomPayload :=
  set_input_context payload (<[name := src]> (input_context payload)).

(** ** The instance *)

Record Context : Type := {
  max_batch_size : Z;
  execute_delay_ms_ : Z;
  accumulator_ : list Z }.

(** The constructor; [execute_delay_ms] is the value of the configuration
    parameter of that name when there is one. *)
Definition Context_new (max_batch_size : Z) (execute_delay_ms : option Z)
  : Context :=
  {| max_batch_size := max_batch_size;
     execute_delay_ms_ := default 0 execute_delay_ms;
     accumulator_ := replicate (Z.to_nat (Z.max 1 max_batch_size)) 0 |}.

(** ** Context::Execute *)

(** Lines 263-271: the first dimension of the input named INPUT, 0 when no
    input has that name. *)
Fixpoint input_element_cnt_of (input_names : list string)
    (input_shape_dims : list (list Z)) : option Z :=
  match input_names with
  | [] => Some 0
  | name :: input_names' =>
      if String.eqb name "INPUT"
      then dims ← head input_shape_dims; head dims
      else input_element_cnt_of input_names' (tail input_shape_dims)
  end.

(** [for (e = ...; e < input_element_cnt; ++e) accumulator_[pidx] += input[e]],
    run for [n] more elements from index [e]. *)
Fixpoint accumulate (n : nat) (input : list byte) (e : Z) (acc : Z)
  : option Z :=
  match n with
  | O => Some acc
  | S n' =>
      x ← read_int32 input e;
      accumulate n' input (e + 1) (wrap_int32 (acc + x))
  end.

(** Lines 306-317: the new value of the accumulator. *)
Definition update_accumulator (start0 : Z) (input : list byte)
    (input_element_cnt : Z) (acc : Z) : option Z :=
  if decide (start0 = 0)
  then accumulate (Z.to_nat input_element_cnt) input 0 acc
  else
    x ← read_int32 input 0;
    accumulate (Z.to_nat (input_element_cnt - 1)) input 1 x.

(** Lines 323-349: the output, when it is asked for. *)
Definition write_output (max_batch_size input_element_cnt output : Z)
    (payload : CustomPayload) : CustomPayload :=
  if decide (error_code payload = Success) then
    match required_output_names payload with
    | [] => payload
    | output_name :: _ =>
        let shape :=
          (if decide (max_batch_size = 0) then [] else [1])
            ++ [input_element_cnt] in
        let octx := output_context payload in
        let request :=
          {| req_name := output_name; req_shape := shape;
             req_byte_size := batch1_byte_size |} in
        let requests := out_requests octx ++ [request] in
        match out_answer octx with
        | OutputFail =>
            set_error_code
              (set_output_context payload
                 {| out_answer := out_answer octx; out_requests := requests;
                    out_written := out_written octx |})
              kOutputBuffer
        | OutputNull =>
            set_output_context payload
              {| out_answer := out_answer octx; out_requests := requests;
                 out_written := out_written octx |}
        | OutputBuffer =>
            set_output_context payload
              {| out_answer := out_answer octx; out_requests := requests;
                 out_written := Some (bytes_of_int32 output) |}
        end
    end
  else payload.

(** Lines 299-350: the state machine of one slot, on the three assembled
    buffers. *)
Definition sequence_step (max_batch_size : Z) (pidx : nat)
    (accumulator_ : list Z) (payload : CustomPayload)
    (start_buffer ready_buffer input_buffer : list byte)
    (input_element_cnt : Z) : option (list Z * CustomPayload) :=
  ready0 ← read_int32 ready_buffer 0;
  if decide (ready0 = 0) then Some (accumulator_, payload)
  else
    start0 ← read_int32 start_buffer 0;
    acc ← accumulator_ !! pidx;
    acc' ← update_accumulator start0 input_buffer input_element_cnt acc;
    let output := acc' in
    Some (<[pidx := acc']> accumulator_,
          write_output max_batch_size input_element_cnt output payload).

(** Lines 256-350: the body of the loop over the payloads. *)
Definition Execute_payload (max_batch_size : Z) (pidx : nat)
    (accumulator_ : list Z) (payload : CustomPayload)
  : option (list Z * CustomPayload) :=
  if decide (batch_size payload = 1) then
    input_element_cnt ←
      input_element_cnt_of (input_names payload) (input_shape_dims payload);
    '(err, start_buffer, src) ←
      GetInputTensor (input_source payload "START") batch1_byte_size [];
    let payload := pulled payload "START" src in
    if decide (err = Success) then
      '(err, ready_buffer, src) ←
        GetInputTensor (input_source payload "READY") batch1_byte_size [];
      let payload := pulled payload "READY" src in
      if decide (err = Success) then
        '(err, input_buffer, src) ←
          GetInputTensor (input_source payload "INPUT")
            (wrap_uint64 (input_element_cnt * batch1_byte_size)) [];
        let payload := pulled payload "INPUT" src in
        if decide (err = Success) then
          sequence_step max_batch_size pidx accumulator_ payload
            start_buffer ready_buffer input_buffer input_element_cnt
        else Some (accumulator_, set_error_code payload err)
      else Some (accumulator_, set_error_code payload err)
    else Some (accumulator_, set_error_code payload err)
  else Some (accumulator_, set_error_code payload kTimesteps).

Fixpoint Execute_loop (max_batch_size : Z) (pidx : nat)
    (accumulator_ : list Z) (payloads : list CustomPayload)
  : option (list Z * list CustomPayload) :=
  match payloads with
  | [] => Some (accumulator_, [])
  | payload :: payloads' =>
      '(accumulator_, payload) ←
        Execute_payload max_batch_size pidx accumulator_ payload;
      '(accumulator_, payloads') ←
        Execute_loop max_batch_size (S pidx) accumulator_ payloads';
      Some (accumulator_, payload :: payloads')
  end.

(** What one call of [Execute] leaves behind: the returned code, the
    instance, the payloads and the delay slept, if any. *)
Record ExecuteResult : Type := {
  exec_ret : ErrorCode;
  exec_context : Context;
  exec_payloads : list CustomPayload;
  exec_slept : option Z }.

Definition Execute (ctx : Context) (payloads : list CustomPayload)
  : option ExecuteResult :=
  if (length (accumulator_ ctx) <? length payloads)%nat then
    Some {| exec_ret := kBatchTooBig; exec_context := ctx;
            exec_payloads := payloads; exec_slept := None |}
  else
    let slept :=
      if 0 <? execute_delay_ms_ ctx then Some (execute_delay_ms_ ctx)
      else None in
    '(accumulator_', payloads') ←
      Execute_loop (max_batch_size ctx) 0 (accumulator_ ctx) payloads;
    Some {| exec_ret := Success;
            exec_context :=
              {| max_batch_size := max_batch_size ctx;
                 execute_delay_ms_ := execute_delay_ms_ ctx;
                 accumulator_ := accumulator_' |};
            exec_payloads := payloads'; exec_slept := slept |}.

(** ** Successive calls *)

(** Successive calls of [Execute] on one instance, as the host makes them,
    with the results of all calls. *)
Fixpoint Execute_calls (ctx : Context) (batches : list (list CustomPayload))
  : option (list ExecuteResult) :=
  match batches with
  | [] => Some []
  | payloads :: batches' =>
      r ← Execute ctx payloads;
      rs ← Execute_calls (exec_context r) batches';
      Some (r :: rs)
  end.

(** ** The model configuration *)

(** Modelled from the spec: the enumeration [DataType] of the model
    configuration (src/core/model_config.proto).  [Init] only tells
    [TYPE_INT32] from the other types. *)
Inductive DataType : Set :=
| TYPE_INVALID
| TYPE_BOOL
| TYPE_UINT8
| TYPE_UINT16
| TYPE_UINT32
| TYPE_UINT64
| TYPE_INT8
| TYPE_INT16
| TYPE_INT32
| TYPE_INT64
| TYPE_FP16
| TYPE_FP32
| TYPE_FP64
| TYPE_STRING.

#[global] Instance DataType_eq_dec : EqDecision DataType.
Proof. solve_decision. Defined.

(** Modelled from the spec: the messages of the model configuration
    (src/core/model_config.proto), with the fields the backend reads.  A
    repeated field is a list, [x_size()] its length and [x(i)] its element
    [i]; an optional message is an [option]. *)
Record ModelInput : Type := {
  mi_name : string;
  mi_data_type : DataType;
  mi_dims : list Z }.

Record ModelOutput : Type := {
  mo_name : string;
  mo_data_type : DataType;
  mo_dims : list Z }.

Record ControlInput : Type := { ci_name : string }.

Record SequenceBatching : Type := { control_input : list ControlInput }.

Record ModelConfig : Type := {
  mc_max_batch_size : Z;
  mc_input : list ModelInput;
  mc_output : list ModelOutput;
  mc_sequence_batching : option SequenceBatching;
  mc_parameters : gmap string string }.

(** ** The instance with its configuration *)

(** The object [Create] builds: the members of the base class
    [CustomInstance] that the backend reads, and the state of [Context]. *)
Record SequenceInstance : Type := {
  instance_name : string;
  model_config_ : ModelConfig;
  gpu_device_ : Z;
  context : Context }.

(** The constructor [Context::Context] (lines 112-126).  [stoi] stands for
    [std::stoi], [None] for the exception it throws on a string it cannot
    convert; the exception leaves the constructor. *)
Definition Context_ctor (stoi : string -> option Z) (instance_name : string)
    (model_config : ModelConfig) (gpu_device : Z) : option SequenceInstance :=
  execute_delay_ms ←
    match mc_parameters model_config !! "execute_delay_ms"%string with
    | None => Some None
    | Some string_value => Some <$> stoi string_value
    end;
  Some {| instance_name := instance_name;
          model_config_ := model_config;
          gpu_device_ := gpu_device;
          context :=
            Context_new (mc_max_batch_size model_config) execute_delay_ms |}.

(** [Context::Init] (lines 130-184).  [CUSTOM_NO_GPU_DEVICE] is a macro of
    the SDK (src/custom/custom.h) and comes in as a parameter.  An element
    of a repeated field taken outside the field has no defined result:
    [None]. *)
Definition Init (CUSTOM_NO_GPU_DEVICE : Z) (inst : SequenceInstance)
  : option ErrorCode :=
  let model_config_ := model_config_ inst in
  if decide (gpu_device_ inst <> CUSTOM_NO_GPU_DEVICE)
  then Some kGpuNotSupported
  else
    match mc_sequence_batching model_config_ with
    | None => Some kSequenceBatcher
    | Some batcher =>
        if decide (length (control_input batcher) <> 2%nat)
        then Some kModelControl
        else
          c0 ← control_input batcher !! 0%nat;
          c1 ← control_input batcher !! 1%nat;
          if negb ((String.eqb (ci_name c0) "START"
                    && String.eqb (ci_name c1) "READY")
                   || (String.eqb (ci_name c0) "READY"
                       && String.eqb (ci_name c1) "START"))
          then Some kModelControl
          else if decide (length (mc_input model_config_) <> 1%nat)
          then Some kInput
          else
            input0 ← mc_input model_config_ !! 0%nat;
            if decide (length (mi_dims input0) <> 1%nat) then Some kInput
            else if decide (mi_data_type input0 <> TYPE_INT32)
            then Some kInputOutputDataType
            else if negb (String.eqb (mi_name input0) "INPUT")
            then Some kInputName
            else if decide (length (mc_output model_config_) <> 1%nat)
            then Some kOutput
            else
              output0 ← mc_output model_config_ !! 0%nat;
              if decide (length (mo_dims output0) <> 1%nat) then Some kOutput
              else
                output_dim ← mo_dims output0 !! 0%nat;
                input_dim ← mi_dims input0 !! 0%nat;
                if decide (output_dim <> input_dim) then Some kOutput
                else if decide (mo_data_type output0 <> TYPE_INT32)
                then Some kInputOutputDataType
                else if negb (String.eqb (mo_name output0) "OUTPUT")
                then Some kOutputName
                else Some Success
    end.

(** [CustomInstance::Create] (lines 359-375): the instance is handed over
    before [Init] runs, with the code [Init] returns.  [new] does not return
    a null pointer, so the branch to [CreationFailure] is never taken. *)
Definition Create (CUSTOM_NO_GPU_DEVICE : Z) (stoi : string -> option Z)
    (name : string) (model_config : ModelConfig) (gpu_device : Z)
  : option (SequenceInstance * ErrorCode) :=
  inst ← Context_ctor stoi name model_config gpu_device;
  err ← Init CUSTOM_NO_GPU_DEVICE inst;
  Some (inst, err).

(** * Vocabulary of the properties *)

(** ** Values and tensors *)

Definition is_int32 (z : Z) : Prop := - 2 ^ 31 <= z < 2 ^ 31.

(** The tensor that holds the values [l]. *)
Definition int32_tensor (l : list Z) : list byte :=
  concat (map bytes_of_int32 l).

(** ** Sources *)

Definition chunks (cs : list (list byte)) : list pull := map PullChunk cs.

Definition byte_size (cs : list (list byte)) : Z :=
  Z.of_nat (length (concat cs)).

(** A source that delivers [content] in one chunk. *)
Definition whole (content : list byte) : list pull :=
  [PullChunk content; PullNull].

(** The source answers with the null pointer: explicitly, or because it has
    nothing left. *)
Definition null_signal (src : list pull) : Prop :=
  match src with
  | [] | PullNull :: _ => True
  | _ => False
  end.

(** Every chunk holds the four bytes that the loop reads at its start. *)
Definition chunks_readable (src : list pull) : bool :=
  forallb (fun a => match a with
                    | PullChunk c => (4 <=? length c)%nat
                    | _ => true
                    end) src.

(** The number of bytes that the chunks of a source hold together. *)
Fixpoint source_byte_size (src : list pull) : Z :=
  match src with
  | [] => 0
  | PullChunk c :: src' => Z.of_nat (length c) + source_byte_size src'
  | _ :: src' => source_byte_size src'
  end.

(** No chunk is so large that the 64-bit running count could wrap around.
    A chunk and the vector of the bytes received before it lie in one 64-bit
    address space, so the sources a host can build are of this kind. *)
Definition chunks_fit (expected_byte_size : Z) (src : list pull) : bool :=
  forallb (fun a => match a with
                    | PullChunk c =>
                        expected_byte_size + Z.of_nat (length c) <? 2 ^ 64
                    | _ => true
                    end) src.

(** The three ways an assembly fails.  In each, [cs] are the chunks
    delivered and copied before. *)

(** (1) a pull call that is reached fails. *)
Definition pull_fails (src : list pull) (expected_byte_size : Z) : Prop :=
  exists cs rest,
    src = chunks cs ++ PullFail :: rest /\ byte_size cs <= expected_byte_size.

(** (2) a chunk takes the running total over the expected size. *)
Definition size_exceeded (src : list pull) (expected_byte_size : Z) : Prop :=
  exists cs c rest,
    src = chunks cs ++ PullChunk c :: rest
    /\ byte_size cs <= expected_byte_size
    /\ expected_byte_size < byte_size cs + Z.of_nat (length c).

(** (3) the null signal comes while the running total is short. *)
Definition ends_short (src : list pull) (expected_byte_size : Z) : Prop :=
  exists cs rest,
    src = chunks cs ++ rest /\ null_signal rest
    /\ byte_size cs < expected_byte_size.

(** ** Payloads and instances *)

(** The code [GetInputTensor] returns for input [name] of payload [p]. *)
Definition assembly_error (p : CustomPayload) (name : string)
    (expected_byte_size : Z) : option ErrorCode :=
  (fun r => r.1.1)
    <$> GetInputTensor (input_source p name) expected_byte_size [].

(** A payload that records an error before the state machine runs: its
    batch size is not 1, or the assembly of START, READY or INPUT fails. *)
Definition fails_before_step (p : CustomPayload) : Prop :=
  batch_size p <> 1
  \/ assembly_error p "START" batch1_byte_size <> Some Success
  \/ assembly_error p "READY" batch1_byte_size <> Some Success
  \/ exists cnt,
       input_element_cnt_of (input_names p) (input_shape_dims p) = Some cnt
       /\ assembly_error p "INPUT" (wrap_uint64 (cnt * batch1_byte_size))
          <> Some Success.

(** The instance of [ctx] cut down to one slot holding [a]. *)
Definition single_slot (ctx : Context) (a : Z) : Context :=
  {| max_batch_size := max_batch_size ctx;
     execute_delay_ms_ := execute_delay_ms_ ctx;
     accumulator_ := [a] |}.

(** The store has the size the constructor gives it. *)
Definition store_sized (ctx : Context) : Prop :=
  length (accumulator_ ctx) = Z.to_nat (Z.max 1 (max_batch_size ctx)).

(** What the loop body leaves that depends on the data: the store, the
    error code and the output. *)
Definition outcome (r : option (list Z * CustomPayload))
  : option (list Z * ErrorCode * OutputContext) :=
  (fun '(accs, p) => (accs, error_code p, output_context p)) <$> r.

(** The output buffers after a call, one entry per payload. *)
Definition emitted (r : ExecuteResult) : list (option (list byte)) :=
  map (out_written ∘ output_context) (exec_payloads r).

(** ** Timesteps *)

Definition fresh_output (answer : OutputAnswer) : OutputContext :=
  {| out_answer := answer; out_requests := []; out_written := None |}.

(** One timestep of a sequence as the host hands it over: an INPUT of the
    shape [shape], the sources of the three inputs and the output OUTPUT
    asked for. *)
Definition timestep (shape : list Z) (start ready input : list pull)
    (answer : OutputAnswer) : CustomPayload :=
  {| batch_size := 1;
     input_names := ["INPUT"%string];
     input_shape_dims := [shape];
     required_output_names := ["OUTPUT"%string];
     input_context :=
       <["START"%string := start]>
         (<["READY"%string := ready]> (<["INPUT"%string := input]> ∅));
     output_context := fresh_output answer;
     error_code := Success |}.

(** A timestep whose tensors come in one chunk each. *)
Definition plain_timestep (start ready : Z) (input : list Z) : CustomPayload :=
  timestep [Z.of_nat (length input)] (whole (int32_tensor [start]))
    (whole (int32_tensor [ready])) (whole (int32_tensor input)) OutputBuffer.

(** The values of a timestep are INT32 values, and its INPUT has at least
    one element and a size that a [size_t] holds. *)
Definition timestep_ok (s : Z) (l : list Z) : Prop :=
  is_int32 s /\ l <> [] /\ Forall is_int32 l
  /\ Z.of_nat (length l) * 4 < 2 ^ 64.

(** A start step with an INPUT of no element. *)
Definition empty_start : CustomPayload :=
  timestep [0] (whole (int32_tensor [1])) (whole (int32_tensor [1]))
    [PullNull] OutputBuffer.

(** A start step that lists no input named INPUT. *)
Definition start_without_input : CustomPayload :=
  {| batch_size := 1;
     input_names := [];
     input_shape_dims := [];
     required_output_names := ["OUTPUT"%string];
     input_context :=
       <["START"%string := whole (int32_tensor [1])]>
         (<["READY"%string := whole (int32_tensor [1])]> ∅);
     output_context := fresh_output OutputBuffer;
     error_code := Success |}.

(** A payload that declares five elements and delivers four. *)
Definition short_input : CustomPayload :=
  timestep [5] (whole (int32_tensor [0])) (whole (int32_tensor [1]))
    (whole (int32_tensor [1; 1; 1; 1])) OutputBuffer.

(** The values 1 and 2, cut after the second byte. *)
Definition two_chunks : list (list byte) :=
  [ [Byte.x01; Byte.x00];
    [Byte.x00; Byte.x00; Byte.x02; Byte.x00; Byte.x00; Byte.x00] ].

(** The four bytes of one value, then a chunk of one more byte. *)
Definition overflow_by_one : list pull :=
  [PullChunk (int32_tensor [1]); PullChunk [Byte.x07]; PullNull].

(** A batch with a failing payload between two good ones. *)
Definition mixed_batch : list CustomPayload :=
  [plain_timestep 1 1 [2; 3; 4]; short_input; plain_timestep 0 1 [1; 1; 1]].

(** A start step that comes with an error code already set. *)
Definition failed_timestep : CustomPayload :=
  set_error_code (plain_timestep 1 1 [2; 3]) kInputSize.

(** A start step that asks for no output. *)
Definition silent_timestep : CustomPayload :=
  {| batch_size := 1;
     input_names := ["INPUT"%string];
     input_shape_dims := [[2]];
     required_output_names := [];
     input_context := input_context (plain_timestep 1 1 [2; 3]);
     output_context := fresh_output OutputBuffer;
     error_code := Success |}.

(** The values 1 and 2, one chunk each. *)
Definition element_chunks : list (list byte) :=
  [int32_tensor [1]; int32_tensor [2]].

(** A step whose INPUT, the values 1 and 2, comes in two chunks. *)
Definition chunked_timestep (start : Z) : CustomPayload :=
  timestep [2] (whole (int32_tensor [start])) (whole (int32_tensor [1]))
    (chunks element_chunks ++ [PullNull]) OutputBuffer.

(** A step whose INPUT, the values 1 and 2, is cut after the second
    byte. *)
Definition misaligned_timestep (start : Z) : CustomPayload :=
  timestep [2] (whole (int32_tensor [start])) (whole (int32_tensor [1]))
    (chunks two_chunks ++ [PullNull]) OutputBuffer.

(** ** Configurations *)

(** The configurations [Init] is written to accept: two control inputs
    named START and READY in either order, one INT32 input INPUT and one
    INT32 output OUTPUT, both of one dimension, the same for both. *)
Definition config_accepted (model_config : ModelConfig) : Prop :=
  exists c0 c1 dim,
    mc_sequence_batching model_config
    = Some {| control_input := [ {| ci_name := c0 |}; {| ci_name := c1 |} ] |}
    /\ ((c0 = "START"%string /\ c1 = "READY"%string)
        \/ (c0 = "READY"%string /\ c1 = "START"%string))
    /\ mc_input model_config
       = [ {| mi_name := "INPUT"; mi_data_type := TYPE_INT32;
              mi_dims := [dim] |} ]
    /\ mc_output model_config
       = [ {| mo_name := "OUTPUT"; mo_data_type := TYPE_INT32;
              mo_dims := [dim] |} ].

(** The instance with the control inputs of its configuration listed in the
    reverse order. *)
Definition reverse_control_inputs (inst : SequenceInstance)
  : SequenceInstance :=
  {| instance_name := instance_name inst;
     model_config_ :=
       {| mc_max_batch_size := mc_max_batch_size (model_config_ inst);
          mc_input := mc_input (model_config_ inst);
          mc_output := mc_output (model_config_ inst);
          mc_sequence_batching :=
            (fun batcher =>
               {| control_input := reverse (control_input batcher) |})
              <$> mc_sequence_batching (model_config_ inst);
          mc_parameters := mc_parameters (model_config_ inst) |};
     gpu_device_ := gpu_device_ inst;
     context := context inst |}.

(** A configuration of the accepted kind, for a vector of [dim] elements. *)
Definition sequence_config (max_batch_size dim : Z)
    (parameters : gmap string string) : ModelConfig :=
  {| mc_max_batch_size := max_batch_size;
     mc_input := [ {| mi_name := "INPUT"; mi_data_type := TYPE_INT32;
                      mi_dims := [dim] |} ];
     mc_output := [ {| mo_name := "OUTPUT"; mo_data_type := TYPE_INT32;
                       mo_dims := [dim] |} ];
     mc_sequence_batching :=
       Some {| control_input :=
                 [ {| ci_name := "START" |}; {| ci_name := "READY" |} ] |};
     mc_parameters := parameters |}.

(** * Properties *)

(** ** Machine arithmetic *)

(** Linear arithmetic with the divisions and remainders of the wrap-arounds. *)
Local Ltac div_lia :=
  cbv [wrap_int32 wrap_uint64] in *;
  Z.to_euclidean_division_equations; lia.

Lemma wrap_int32_range z : is_int32 (wrap_int32 z).
Proof. unfold is_int32. div_lia. Qed.

Lemma wrap_int32_id z : is_int32 z -> wrap_int32 z = z.
Proof. unfold is_int32. div_lia. Qed.

Lemma wrap_int32_add_l a b : wrap_int32 (wrap_int32 a + b) = wrap_int32 (a + b).
Proof. div_lia. Qed.

Lemma wrap_int32_add_r a b : wrap_int32 (a + wrap_int32 b) = wrap_int32 (a + b).
Proof. div_lia. Qed.

Lemma byte_val_of_Z z : byte_val (byte_of_Z z) = z mod 256.
Proof.
  unfold byte_val, byte_of_Z.
  destruct (Byte.of_N (Z.to_N (z mod 256))) as [b|] eqn:E.
  - apply Byte.to_of_N in E. simpl. rewrite E.
    rewrite Z2N.id; [done|]. apply Z.mod_pos_bound. lia.
  - apply Byte.of_N_None_iff in E. pose proof (Z.mod_pos_bound z 256). lia.
Qed.

Lemma byte_val_range b : 0 <= byte_val b < 256.
Proof. unfold byte_val. pose proof (Byte.to_N_bounded b). lia. Qed.

Lemma int32_of_bytes_of_int32 z :
  decode_int32s (bytes_of_int32 z) = [wrap_int32 z].
Proof.
  unfold bytes_of_int32, decode_int32s, int32_of_bytes.
  rewrite !byte_val_of_Z. f_equal. div_lia.
Qed.

(** ** The accumulation loop *)

Lemma read_int32_drop (buf : list byte) (k : nat) b0 b1 b2 b3 rest :
  drop (4 * k) buf = b0 :: b1 :: b2 :: b3 :: rest ->
  read_int32 buf (Z.of_nat k) = Some (int32_of_bytes b0 b1 b2 b3).
Proof.
  intros Hdrop. unfold read_int32.
  destruct (Z.ltb_spec (Z.of_nat k) 0) as [?|_]; [lia|].
  replace (Z.to_nat (4 * Z.of_nat k)) with (4 * k)%nat by lia.
  by rewrite Hdrop.
Qed.

Lemma read_int32_nil (e : Z) : read_int32 [] e = None.
Proof. unfold read_int32. destruct (e <? 0); [done|]. by rewrite drop_nil. Qed.

(** Over a buffer that holds exactly [n] more elements, the loop adds their
    sum to the accumulator, in 32-bit arithmetic. *)
Lemma accumulate_sum (n : nat) : forall (buf : list byte) (k : nat) (acc : Z),
  is_int32 acc ->
  length (drop (4 * k) buf) = (4 * n)%nat ->
  accumulate n buf (Z.of_nat k) acc
  = Some (wrap_int32 (acc + sum_list (decode_int32s (drop (4 * k) buf)))).
Proof.
  induction n as [|n IH]; intros buf k acc Hacc Hlen.
  - destruct (drop (4 * k) buf) as [|? ?] eqn:E; [|done].
    simpl. by rewrite Z.add_0_r, wrap_int32_id.
  - destruct (drop (4 * k) buf) as [|b0 [|b1 [|b2 [|b3 rest]]]] eqn:E;
      simpl in Hlen; try lia.
    cbn [accumulate]. rewrite (read_int32_drop _ _ _ _ _ _ _ E).
    cbn [mbind option_bind].
    assert (Hrest : drop (4 * S k) buf = rest).
    { replace (4 * S k)%nat with (4 * k + 4)%nat by lia.
      by rewrite <- drop_drop, E. }
    replace (Z.of_nat k + 1) with (Z.of_nat (S k)) by lia.
    rewrite IH; [|apply wrap_int32_range|rewrite Hrest; lia].
    rewrite Hrest. cbn [decode_int32s sum_list foldr].
    f_equal. rewrite wrap_int32_add_l. f_equal. unfold sum_list. lia.
Qed.

Lemma update_accumulator_add (buf : list byte) (n : nat) (acc : Z) :
  is_int32 acc ->
  length buf = (4 * n)%nat ->
  update_accumulator 0 buf (Z.of_nat n) acc
  = Some (wrap_int32 (acc + sum_list (decode_int32s buf))).
Proof.
  intros Hacc Hlen. unfold update_accumulator.
  rewrite decide_True by done. rewrite Nat2Z.id.
  by apply (accumulate_sum n buf 0 acc).
Qed.

Lemma update_accumulator_set (start0 : Z) (buf : list byte) (n : nat)
    (acc : Z) :
  start0 <> 0 ->
  (0 < n)%nat ->
  length buf = (4 * n)%nat ->
  update_accumulator start0 buf (Z.of_nat n) acc
  = Some (wrap_int32 (sum_list (decode_int32s buf))).
Proof.
  intros Hstart Hn Hlen. unfold update_accumulator.
  rewrite decide_False by done.
  destruct buf as [|b0 [|b1 [|b2 [|b3 rest]]]]; simpl in Hlen; try lia.
  rewrite (read_int32_drop _ 0 b0 b1 b2 b3 rest) by done.
  cbn [mbind option_bind].
  replace (Z.to_nat (Z.of_nat n - 1)) with (n - 1)%nat by lia.
  rewrite (accumulate_sum (n - 1) _ 1 _);
    change (drop (4 * 1) (b0 :: b1 :: b2 :: b3 :: rest)) with rest;
    [done|apply wrap_int32_range|lia].
Qed.

(** The set branch reads [input[0]] whatever the element count: on an empty
    buffer the read is outside the buffer. *)
Lemma update_accumulator_set_empty (start0 cnt acc : Z) :
  start0 <> 0 -> update_accumulator start0 [] cnt acc = None.
Proof.
  intros Hstart. unfold update_accumulator.
  rewrite decide_False by done. by rewrite read_int32_nil.
Qed.

(** ** Chunk assembly *)

Lemma byte_size_nil : byte_size [] = 0.
Proof. done. Qed.

Lemma byte_size_cons c cs :
  byte_size (c :: cs) = Z.of_nat (length c) + byte_size cs.
Proof. unfold byte_size. simpl. rewrite length_app. lia. Qed.

Lemma byte_size_nonneg cs : 0 <= byte_size cs.
Proof. unfold byte_size. lia. Qed.

Lemma read_int32_readable (c : list byte) :
  (4 <= length c)%nat -> is_Some (read_int32 c 0).
Proof.
  intros Hlen. destruct c as [|b0 [|b1 [|b2 [|b3 rest]]]]; simpl in Hlen;
    try lia.
  by eexists.
Qed.

Lemma read_int32_short (c : list byte) :
  (length c < 4)%nat -> read_int32 c 0 = None.
Proof.
  intros Hlen. destruct c as [|b0 [|b1 [|b2 [|b3 rest]]]]; simpl in Hlen;
    (done || lia).
Qed.

Lemma chunks_readable_cons (c : list byte) (src : list pull) :
  chunks_readable (PullChunk c :: src) = true ->
  (4 <= length c)%nat /\ chunks_readable src = true.
Proof.
  unfold chunks_readable. cbn [forallb]. intros H.
  apply andb_prop in H as [H1 H2]. by apply Nat.leb_le in H1.
Qed.

Lemma chunks_readable_app (src1 src2 : list pull) :
  chunks_readable (src1 ++ src2) = true ->
  chunks_readable src1 = true /\ chunks_readable src2 = true.
Proof.
  unfold chunks_readable. rewrite forallb_app. apply andb_prop.
Qed.

(** Chunks that stay within the expected size are all copied. *)
Lemma GetInputTensor_loop_accepts (expected : Z) (cs : list (list byte)) :
  forall (rest : list pull) (total : Z) (input : list byte),
  chunks_readable (chunks cs) = true ->
  0 <= total ->
  total + byte_size cs <= expected ->
  expected < 2 ^ 64 ->
  GetInputTensor_loop (chunks cs ++ rest) expected total input
  = GetInputTensor_loop rest expected (total + byte_size cs)
      (input ++ concat cs).
Proof.
  induction cs as [|c cs IH]; intros rest total input Hread Htotal Hsum Hexp.
  - simpl. by rewrite byte_size_nil, Z.add_0_r, app_nil_r.
  - rewrite byte_size_cons in *. pose proof (byte_size_nonneg cs).
    cbn [chunks map] in Hread.
    apply chunks_readable_cons in Hread as [Hc Hread].
    cbn [chunks map app GetInputTensor_loop].
    destruct (read_int32_readable c Hc) as [x ->]. cbn [mbind option_bind].
    assert (Hw : wrap_uint64 (total + Z.of_nat (length c))
                 = total + Z.of_nat (length c)).
    { unfold wrap_uint64. apply Z.mod_small. lia. }
    rewrite Hw.
    destruct (Z.ltb_spec expected (total + Z.of_nat (length c))); [lia|].
    fold (chunks cs). rewrite IH by (done || lia).
    by rewrite Z.add_assoc, <- app_assoc.
Qed.

Lemma GetInputTensor_loop_null (expected total : Z) (input : list byte)
    (rest : list pull) :
  null_signal rest ->
  GetInputTensor_loop rest expected total input
  = Some (if decide (total = expected) then Success else kInputSize,
          input, tail rest).
Proof. by destruct rest as [|[]]. Qed.

Lemma GetInputTensor_pull_fails cs rest expected input :
  chunks_readable (chunks cs) = true ->
  byte_size cs <= expected < 2 ^ 64 ->
  GetInputTensor (chunks cs ++ PullFail :: rest) expected input
  = Some (kInputContents, input ++ concat cs, rest).
Proof.
  intros Hread H. unfold GetInputTensor.
  by rewrite GetInputTensor_loop_accepts by (done || lia).
Qed.

Lemma GetInputTensor_size_exceeded cs c rest expected input :
  chunks_readable (chunks cs) = true ->
  (4 <= length c)%nat ->
  byte_size cs <= expected ->
  expected < byte_size cs + Z.of_nat (length c) < 2 ^ 64 ->
  GetInputTensor (chunks cs ++ PullChunk c :: rest) expected input
  = Some (kInputSize, input ++ concat cs, rest).
Proof.
  intros Hread Hc H1 H2. unfold GetInputTensor.
  pose proof (byte_size_nonneg cs).
  rewrite GetInputTensor_loop_accepts by (done || lia).
  cbn [GetInputTensor_loop].
  destruct (read_int32_readable c Hc) as [x ->]. cbn [mbind option_bind].
  unfold wrap_uint64. rewrite Z.mod_small by lia.
  by destruct (Z.ltb_spec expected (0 + byte_size cs + Z.of_nat (length c)));
    [|lia].
Qed.

Lemma GetInputTensor_ends cs rest expected input :
  chunks_readable (chunks cs) = true ->
  null_signal rest ->
  byte_size cs <= expected < 2 ^ 64 ->
  GetInputTensor (chunks cs ++ rest) expected input
  = Some (if decide (byte_size cs = expected) then Success else kInputSize,
          input ++ concat cs, tail rest).
Proof.
  intros Hread Hnull H. unfold GetInputTensor.
  rewrite GetInputTensor_loop_accepts by (done || lia).
  by rewrite GetInputTensor_loop_null.
Qed.

(** A chunk of fewer than four bytes that the loop reaches leaves the call
    without a defined result. *)
Lemma GetInputTensor_short_chunk cs c rest expected input :
  chunks_readable (chunks cs) = true ->
  byte_size cs <= expected < 2 ^ 64 ->
  (length c < 4)%nat ->
  GetInputTensor (chunks cs ++ PullChunk c :: rest) expected input = None.
Proof.
  intros Hread H Hc. unfold GetInputTensor.
  rewrite GetInputTensor_loop_accepts by (done || lia).
  cbn [GetInputTensor_loop]. by rewrite read_int32_short.
Qed.

Local Ltac source_case := repeat split; first [done | lia].

(** Every source falls under one of the four cases, counted from a running
    total within the expected size. *)
Lemma source_cases (expected : Z) (src : list pull) : forall total : Z,
  total <= expected ->
  (exists cs rest, src = chunks cs ++ PullFail :: rest
                   /\ total + byte_size cs <= expected)
  \/ (exists cs c rest, src = chunks cs ++ PullChunk c :: rest
                        /\ total + byte_size cs <= expected
                        /\ expected < total + byte_size cs
                                      + Z.of_nat (length c))
  \/ (exists cs rest, src = chunks cs ++ rest /\ null_signal rest
                      /\ total + byte_size cs < expected)
  \/ (exists cs rest, src = chunks cs ++ rest /\ null_signal rest
                      /\ total + byte_size cs = expected).
Proof.
  induction src as [|a src IH]; intros total Htotal.
  - destruct (decide (total = expected)).
    + do 3 right. exists [], []. rewrite byte_size_nil. source_case.
    + right; right; left. exists [], []. rewrite byte_size_nil. source_case.
  - destruct a as [| |c].
    + left. exists [], src. rewrite byte_size_nil. source_case.
    + destruct (decide (total = expected)).
      * do 3 right. exists [], (PullNull :: src).
        rewrite byte_size_nil. source_case.
      * right; right; left. exists [], (PullNull :: src).
        rewrite byte_size_nil. source_case.
    + destruct (decide (expected < total + Z.of_nat (length c))).
      * right; left. exists [], c, src. rewrite byte_size_nil. source_case.
      * destruct (IH (total + Z.of_nat (length c))) as
          [(cs & rest & -> & H)|[(cs & c' & rest & -> & H)
          |[(cs & rest & -> & Hn & H)|(cs & rest & -> & Hn & H)]]]; [lia|..].
        -- left. exists (c :: cs), rest. rewrite byte_size_cons. source_case.
        -- right; left. exists (c :: cs), c', rest.
           rewrite byte_size_cons. source_case.
        -- right; right; left. exists (c :: cs), rest.
           rewrite byte_size_cons. source_case.
        -- do 3 right. exists (c :: cs), rest.
           rewrite byte_size_cons. source_case.
Qed.

Lemma source_byte_size_nonneg (src : list pull) : 0 <= source_byte_size src.
Proof. induction src as [|[| |c] src IH]; simpl; lia. Qed.

Lemma source_byte_size_chunks (cs : list (list byte)) (rest : list pull) :
  source_byte_size (chunks cs ++ rest) = byte_size cs + source_byte_size rest.
Proof.
  induction cs as [|c cs IH]; [done|].
  cbn [chunks map app source_byte_size]. fold (chunks cs).
  rewrite IH, byte_size_cons. lia.
Qed.

(** X21: the errors of an assembly from chunks of four bytes or more.  On a
    source whose chunks hold at least four bytes each, and fewer than 2^64
    bytes together, [GetInputTensor], called on an empty vector as [Execute]
    does, returns an error exactly in three cases: a pull call that is
    reached fails ([kInputContents]); a chunk takes the running total over
    the expected size ([kInputSize], returned on that very chunk); the null
    signal comes while the running total is below the expected size
    ([kInputSize]).  In every other case it returns [Success] and the vector
    is the concatenation of the chunks delivered, of exactly the expected
    length. *)
Theorem GetInputTensor_error_cases_readable (src : list pull)
    (expected : Z) :
  0 <= expected < 2 ^ 64 ->
  source_byte_size src < 2 ^ 64 ->
  chunks_readable src = true ->
  (pull_fails src expected ->
     exists cs rest, src = chunks cs ++ PullFail :: rest
       /\ GetInputTensor src expected []
          = Some (kInputContents, concat cs, rest))
  /\ (size_exceeded src expected ->
        exists cs c rest, src = chunks cs ++ PullChunk c :: rest
          /\ GetInputTensor src expected []
             = Some (kInputSize, concat cs, rest))
  /\ (ends_short src expected ->
        exists cs rest, src = chunks cs ++ rest /\ null_signal rest
          /\ GetInputTensor src expected []
             = Some (kInputSize, concat cs, tail rest))
  /\ (~ pull_fails src expected /\ ~ size_exceeded src expected
      /\ ~ ends_short src expected ->
        exists cs rest, src = chunks cs ++ rest /\ null_signal rest
          /\ GetInputTensor src expected []
             = Some (Success, concat cs, tail rest)
          /\ Z.of_nat (length (concat cs)) = expected).
Proof.
  intros Hexp Hfit Hread. repeat split.
  - intros (cs & rest & -> & Hle). exists cs, rest. split; [done|].
    apply chunks_readable_app in Hread as [Hread _].
    by rewrite GetInputTensor_pull_fails by (done || lia).
  - intros (cs & c & rest & -> & Hle & Hgt). exists cs, c, rest.
    split; [done|]. rewrite source_byte_size_chunks in Hfit.
    cbn [source_byte_size] in Hfit.
    pose proof (source_byte_size_nonneg rest).
    apply chunks_readable_app in Hread as [Hread Hc].
    apply chunks_readable_cons in Hc as [Hc _].
    by rewrite GetInputTensor_size_exceeded by (done || lia).
  - intros (cs & rest & -> & Hnull & Hlt). exists cs, rest.
    do 2 (split; [done|]).
    apply chunks_readable_app in Hread as [Hread _].
    rewrite GetInputTensor_ends by (done || lia).
    by rewrite decide_False by lia.
  - intros (Hfail & Hexc & Hshort).
    destruct (source_cases expected src 0) as
      [(cs & rest & -> & H)|[(cs & c & rest & -> & H)
      |[(cs & rest & -> & Hn & H)|(cs & rest & -> & Hn & H)]]]; [lia|..].
    + destruct Hfail. exists cs, rest. split; [done|lia].
    + destruct Hexc. exists cs, c, rest. split; [done|lia].
    + destruct Hshort. exists cs, rest. do 2 (split; [done|]). lia.
    + exists cs, rest. do 2 (split; [done|]).
      apply chunks_readable_app in Hread as [Hread _].
      rewrite GetInputTensor_ends by (done || lia).
      rewrite decide_True by lia. split; [done|]. unfold byte_size in H. lia.
Qed.

(** C3 at the failing input: a source that delivers the eight bytes
    expected in a chunk of two bytes and one of six, then the null signal.
    None of the three failures of the claim happens, and the claim has
    [GetInputTensor] return [Success] with the eight bytes; for its line to
    the standard output the loop reads four bytes at the start of the
    two-byte chunk, outside the chunk, and the call has no defined
    result. *)
Theorem GetInputTensor_short_chunk_undefined :
  ~ pull_fails (chunks two_chunks ++ [PullNull]) 8
  /\ ~ size_exceeded (chunks two_chunks ++ [PullNull]) 8
  /\ ~ ends_short (chunks two_chunks ++ [PullNull]) 8
  /\ byte_size two_chunks = 8
  /\ GetInputTensor (chunks two_chunks ++ [PullNull]) 8 [] = None.
Proof.
  split; [|split; [|split]].
  - intros (cs & rest & Heq & _).
    by destruct cs as [|? [|? [|? cs]]].
  - intros (cs & c & rest & Heq & Hle & Hlt).
    destruct cs as [|? [|? [|? cs]]]; simplify_eq/=;
      vm_compute in Hlt; done.
  - intros (cs & rest & Heq & Hnull & Hlt).
    destruct cs as [|? [|? [|? cs]]]; simplify_eq/=; done.
  - by vm_compute.
Qed.

(** C7 at the failing input: four bytes are expected, the source delivers
    them in one chunk and then a chunk of one more byte, which takes the
    total over the expected size.  The claim has [GetInputTensor] return
    [kInputSize] on that chunk with the vector holding the first four bytes;
    before it compares the sizes the loop reads four bytes at the start of
    the one-byte chunk, outside the chunk, and the call has no defined
    result. *)
Theorem GetInputTensor_overflowing_short_chunk_undefined :
  size_exceeded overflow_by_one 4
  /\ GetInputTensor overflow_by_one 4 [] = None.
Proof.
  split; [|by vm_compute].
  exists [int32_tensor [1]], [Byte.x07], [PullNull]. by vm_compute.
Qed.

(** ** The loop body *)

Lemma input_source_pulled_ne (p : CustomPayload) (name name' : string)
    (src : list pull) :
  name <> name' ->
  input_source (pulled p name src) name' = input_source p name'.
Proof.
  intros Hne. unfold input_source, pulled. simpl.
  by rewrite lookup_insert_ne.
Qed.

Lemma input_source_pulled_eq (p : CustomPayload) (name : string)
    (src : list pull) :
  input_source (pulled p name src) name = src.
Proof. unfold input_source, pulled. simpl. by rewrite lookup_insert_eq. Qed.

(** Case analysis on the three assemblies of payload [p]. *)
Local Ltac assemblies p :=
  destruct (GetInputTensor (input_source p "START") _ _)
    as [[[? ?] ?]|] eqn:?;
  destruct (GetInputTensor (input_source p "READY") _ _)
    as [[[? ?] ?]|] eqn:?;
  destruct (GetInputTensor (input_source p "INPUT") _ _)
    as [[[? ?] ?]|] eqn:?.

(** The three assemblies of a payload do not depend on one another: the loop
    body in terms of the sources the payload came with. *)
Lemma Execute_payload_unfold (mbs : Z) (pidx : nat) (accs : list Z)
    (p : CustomPayload) :
  Execute_payload mbs pidx accs p
  = if decide (batch_size p = 1) then
      cnt ← input_element_cnt_of (input_names p) (input_shape_dims p);
      '(e1, sb, s1) ←
        GetInputTensor (input_source p "START") batch1_byte_size [];
      let p1 := pulled p "START" s1 in
      if decide (e1 = Success) then
        '(e2, rb, s2) ←
          GetInputTensor (input_source p "READY") batch1_byte_size [];
        let p2 := pulled p1 "READY" s2 in
        if decide (e2 = Success) then
          '(e3, ib, s3) ←
            GetInputTensor (input_source p "INPUT")
              (wrap_uint64 (cnt * batch1_byte_size)) [];
          let p3 := pulled p2 "INPUT" s3 in
          if decide (e3 = Success) then
            sequence_step mbs pidx accs p3 sb rb ib cnt
          else Some (accs, set_error_code p3 e3)
        else Some (accs, set_error_code p2 e2)
      else Some (accs, set_error_code p1 e1)
    else Some (accs, set_error_code p kTimesteps).
Proof.
  unfold Execute_payload. case_decide; [|done].
  destruct (input_element_cnt_of _ _) as [cnt|]; [|done]. simpl.
  destruct (GetInputTensor (input_source p "START") _ _)
    as [[[e1 sb] s1]|]; [|done].
  simpl. case_decide; [|done]. rewrite input_source_pulled_ne by done.
  destruct (GetInputTensor (input_source p "READY") _ _)
    as [[[e2 rb] s2]|]; [|done].
  simpl. case_decide; [|done]. by rewrite !input_source_pulled_ne by done.
Qed.

(** The step touches the store at [pidx] only, and reads nothing else of
    it. *)
Lemma sequence_step_slot (mbs : Z) (pidx : nat) (accs : list Z) (a : Z)
    (p : CustomPayload) (sb rb ib : list byte) (cnt : Z) :
  accs !! pidx = Some a ->
  sequence_step mbs pidx accs p sb rb ib cnt
  = '(s, p') ← sequence_step mbs 0 [a] p sb rb ib cnt;
    a' ← s !! 0%nat; Some (<[pidx := a']> accs, p').
Proof.
  intros Ha. unfold sequence_step.
  destruct (read_int32 rb 0) as [ready0|]; [|done]. simpl.
  case_decide; simpl; [by rewrite list_insert_id|].
  destruct (read_int32 sb 0) as [start0|]; [|done]. simpl.
  rewrite Ha. simpl.
  by destruct (update_accumulator start0 ib cnt a).
Qed.

Lemma Execute_payload_slot (mbs : Z) (pidx : nat) (accs : list Z) (a : Z)
    (p : CustomPayload) :
  accs !! pidx = Some a ->
  Execute_payload mbs pidx accs p
  = '(s, p') ← Execute_payload mbs 0 [a] p;
    a' ← s !! 0%nat; Some (<[pidx := a']> accs, p').
Proof.
  intros Ha. rewrite !Execute_payload_unfold.
  case_decide; simpl; [|by rewrite list_insert_id].
  destruct (input_element_cnt_of _ _) as [cnt|]; [|done]. simpl.
  assemblies p; simpl; try done;
    repeat case_decide; simpl; try done; try by rewrite list_insert_id.
  by apply sequence_step_slot.
Qed.

(** A payload processed on a one-slot store leaves a one-slot store. *)
Lemma Execute_payload_single (mbs a : Z) (p : CustomPayload) s p' :
  Execute_payload mbs 0 [a] p = Some (s, p') -> exists a', s = [a'].
Proof.
  rewrite Execute_payload_unfold. intros H.
  assert (Hstep : forall q sb rb ib cnt,
             sequence_step mbs 0 [a] q sb rb ib cnt = Some (s, p') ->
             exists a', s = [a']).
  { unfold sequence_step. intros q sb rb ib cnt Hq.
    destruct (read_int32 rb 0); simplify_eq/=.
    case_decide; simplify_eq/=; [by eexists|].
    destruct (read_int32 sb 0); simplify_eq/=.
    destruct (update_accumulator _ _ _ _); simplify_eq/=. by eexists. }
  case_decide; simplify_eq/=; [|by eexists].
  destruct (input_element_cnt_of _ _); simplify_eq/=.
  assemblies p; simplify_eq/=;
    repeat case_decide; simplify_eq/=; try by eexists.
  by eapply Hstep.
Qed.

(** ** The loop over the payloads *)

Lemma Execute_loop_slots (mbs : Z) (ps : list CustomPayload) :
  forall (pidx : nat) (accs accs' : list Z) (ps' : list CustomPayload),
  (pidx + length ps <= length accs)%nat ->
  Execute_loop mbs pidx accs ps = Some (accs', ps') ->
  length accs' = length accs
  /\ length ps' = length ps
  /\ (forall j, (j < pidx \/ pidx + length ps <= j)%nat ->
                accs' !! j = accs !! j)
  /\ (forall i p, ps !! i = Some p ->
        exists a a' p',
          accs !! (pidx + i)%nat = Some a
          /\ Execute_payload mbs 0 [a] p = Some ([a'], p')
          /\ ps' !! i = Some p'
          /\ accs' !! (pidx + i)%nat = Some a').
Proof.
  induction ps as [|p ps IH]; intros pidx accs accs' ps' Hlen Hloop.
  - simplify_eq/=. repeat split. intros i p Hi. by destruct i.
  - cbn [Execute_loop] in Hloop. cbn [length] in Hlen.
    destruct (lookup_lt_is_Some_2 accs pidx) as [a Ha]; [lia|].
    rewrite (Execute_payload_slot _ _ _ a) in Hloop by done.
    destruct (Execute_payload mbs 0 [a] p) as [[s p1]|] eqn:Hp; [|done].
    destruct (Execute_payload_single _ _ _ _ _ Hp) as [a1 ->].
    simpl in Hloop.
    destruct (Execute_loop mbs (S pidx) (<[pidx:=a1]> accs) ps)
      as [[accs2 ps2]|] eqn:Hrest; simplify_eq/=.
    apply IH in Hrest as (Hl & Hl' & Hout & Hin);
      [|rewrite length_insert; lia].
    rewrite length_insert in Hl.
    split; [done|]. split; [by rewrite Hl'|]. split.
    + intros j Hj. rewrite Hout by lia.
      apply list_lookup_insert_ne. lia.
    + intros [|i] q Hq; simplify_eq/=.
      * exists a, a1, p1. rewrite Nat.add_0_r.
        repeat split; [done..|].
        rewrite Hout by lia. apply list_lookup_insert_eq. lia.
      * destruct (Hin i q Hq) as (b & b' & q' & Hb & Hq' & Hps & Hb').
        replace (pidx + S i)%nat with (S pidx + i)%nat by lia.
        exists b, b', q'. repeat split; [|done..].
        rewrite list_lookup_insert_ne in Hb by lia. done.
Qed.

Lemma Execute_loop_defined (mbs : Z) (ps : list CustomPayload) :
  forall (pidx : nat) (accs : list Z),
  (pidx + length ps <= length accs)%nat ->
  (forall i p a, ps !! i = Some p -> accs !! (pidx + i)%nat = Some a ->
                 is_Some (Execute_payload mbs 0 [a] p)) ->
  is_Some (Execute_loop mbs pidx accs ps).
Proof.
  induction ps as [|p ps IH]; intros pidx accs Hlen Hdef; [by eexists|].
  cbn [Execute_loop]. cbn [length] in Hlen.
  destruct (lookup_lt_is_Some_2 accs pidx) as [a Ha]; [lia|].
  rewrite (Execute_payload_slot _ _ _ a) by done.
  destruct (Hdef 0%nat p a) as [[s p1] Hp];
    [done|by rewrite Nat.add_0_r|].
  rewrite Hp. destruct (Execute_payload_single _ _ _ _ _ Hp) as [a1 ->].
  simpl.
  destruct (IH (S pidx) (<[pidx:=a1]> accs)) as [[accs2 ps2] Hrest].
  - rewrite length_insert. lia.
  - intros i q b Hq Hb. apply (Hdef (S i) q b); [done|].
    rewrite list_lookup_insert_ne in Hb by lia.
    by replace (pidx + S i)%nat with (S pidx + i)%nat by lia.
  - rewrite Hrest. by eexists.
Qed.

(** [Execute] on one payload and one slot is the loop body. *)
Lemma Execute_single_slot (ctx : Context) (a : Z) (p : CustomPayload) :
  Execute (single_slot ctx a) [p]
  = '(s, p') ← Execute_payload (max_batch_size ctx) 0 [a] p;
    Some {| exec_ret := Success;
            exec_context :=
              {| max_batch_size := max_batch_size ctx;
                 execute_delay_ms_ := execute_delay_ms_ ctx;
                 accumulator_ := s |};
            exec_payloads := [p'];
            exec_slept :=
              if 0 <? execute_delay_ms_ ctx
              then Some (execute_delay_ms_ ctx) else None |}.
Proof.
  unfold Execute, single_slot. simpl.
  by destruct (Execute_payload _ _ _ _) as [[s p']|].
Qed.

(** C4: in one call of [Execute] no payload alters the processing of
    another.  When the batch fits the store and every payload, taken alone,
    is processed without a read outside a buffer, [Execute] returns
    [Success], however many payloads have recorded an error, and what it
    leaves at every slot (the accumulator, and the payload with its error
    code, its sources and its output) is what [Execute] leaves when called
    on that payload alone with that slot's accumulator. *)
Theorem Execute_isolates_payloads (ctx : Context) (ps : list CustomPayload) :
  (length ps <= length (accumulator_ ctx))%nat ->
  (forall j p a, ps !! j = Some p -> accumulator_ ctx !! j = Some a ->
                 is_Some (Execute (single_slot ctx a) [p])) ->
  exists r,
    Execute ctx ps = Some r
    /\ exec_ret r = Success
    /\ length (exec_payloads r) = length ps
    /\ forall j p, ps !! j = Some p ->
         exists a r1,
           accumulator_ ctx !! j = Some a
           /\ Execute (single_slot ctx a) [p] = Some r1
           /\ exec_ret r1 = Success
           /\ exec_payloads r !! j = exec_payloads r1 !! 0%nat
           /\ accumulator_ (exec_context r) !! j
              = accumulator_ (exec_context r1) !! 0%nat.
Proof.
  intros Hlen Hdef.
  destruct (Execute_loop_defined (max_batch_size ctx) ps 0 (accumulator_ ctx))
    as [[accs' ps'] Hloop]; [simpl; lia| |].
  { intros i p a Hp Ha. destruct (Hdef i p a Hp Ha) as [r Hr].
    rewrite Execute_single_slot in Hr.
    by destruct (Execute_payload _ _ _ _). }
  eexists. split.
  { unfold Execute.
    destruct (Nat.ltb_spec (length (accumulator_ ctx)) (length ps)); [lia|].
    by rewrite Hloop. }
  simpl. split; [done|].
  apply Execute_loop_slots in Hloop as (_ & Hl & _ & Hin); [|simpl; lia].
  split; [done|]. intros j p Hp.
  destruct (Hin j p Hp) as (a & a' & p' & Ha & Hp' & Hps' & Ha').
  simpl in Ha, Ha'. exists a. eexists. split; [done|].
  rewrite Execute_single_slot, Hp'. simpl. split; [done|]. simpl.
  by rewrite Hps', Ha'.
Qed.

Lemma Execute_payload_fails (mbs : Z) (pidx : nat) (accs accs' : list Z)
    (p p' : CustomPayload) :
  fails_before_step p ->
  Execute_payload mbs pidx accs p = Some (accs', p') ->
  accs' = accs /\ error_code p' <> Success.
Proof.
  intros Hfail H. rewrite Execute_payload_unfold in H.
  case_decide as Hb; [|by simplify_eq/=].
  destruct (input_element_cnt_of _ _) as [cnt|] eqn:Hcnt; [|done].
  simpl in H.
  destruct (GetInputTensor (input_source p "START") _ _)
    as [[[e1 sb] s1]|] eqn:H1; [|done].
  simpl in H. case_decide as He1; [|by simplify_eq/=].
  destruct (GetInputTensor (input_source p "READY") _ _)
    as [[[e2 rb] s2]|] eqn:H2; [|done].
  simpl in H. case_decide as He2; [|by simplify_eq/=].
  destruct (GetInputTensor (input_source p "INPUT") _ _)
    as [[[e3 ib] s3]|] eqn:H3; [|done].
  simpl in H. case_decide as He3; [|by simplify_eq/=].
  unfold fails_before_step, assembly_error in Hfail.
  destruct Hfail as [?|[He|[He|(cnt' & ? & He)]]];
    [done|..]; simplify_eq; rewrite ?H1, ?H2, ?H3 in He; by simplify_eq/=.
Qed.

(** C5: a payload at slot [i] that records an error before the state
    machine runs (batch size other than 1, or a failed assembly of START,
    READY or INPUT) leaves the accumulator of slot [i] as it was before the
    call; when the batch is processed, the payload ends the call with an
    error code other than [Success]. *)
Theorem Execute_failed_slot_unchanged (ctx : Context)
    (ps : list CustomPayload) (r : ExecuteResult) (i : nat)
    (p : CustomPayload) :
  Execute ctx ps = Some r ->
  ps !! i = Some p ->
  fails_before_step p ->
  accumulator_ (exec_context r) !! i = accumulator_ ctx !! i
  /\ (exec_ret r = Success ->
      exists p', exec_payloads r !! i = Some p' /\ error_code p' <> Success).
Proof.
  unfold Execute. intros Hex Hp Hfail.
  destruct (Nat.ltb_spec (length (accumulator_ ctx)) (length ps)) as [Hlt|Hle];
    [by simplify_eq/=|].
  destruct (Execute_loop _ _ _ _) as [[accs' ps']|] eqn:Hloop; simplify_eq/=.
  apply Execute_loop_slots in Hloop as (_ & _ & _ & Hin); [|simpl; lia].
  destruct (Hin i p Hp) as (a & a' & p' & Ha & Hp' & Hps' & Ha').
  simpl in Ha, Ha'.
  apply Execute_payload_fails in Hp' as [? ?]; [|done]. simplify_eq.
  split; [congruence|]. intros _. by exists p'.
Qed.

(** ** The batch size check *)

Lemma Context_new_sized (mbs : Z) (delay : option Z) :
  store_sized (Context_new mbs delay).
Proof. unfold store_sized, Context_new. simpl. by rewrite length_replicate. Qed.

Lemma Execute_store_sized (ctx : Context) (ps : list CustomPayload)
    (r : ExecuteResult) :
  store_sized ctx -> Execute ctx ps = Some r -> store_sized (exec_context r).
Proof.
  unfold Execute, store_sized. intros Hs Hex.
  destruct (Nat.ltb_spec (length (accumulator_ ctx)) (length ps));
    [by simplify_eq/=|].
  destruct (Execute_loop _ _ _ _) as [[accs' ps']|] eqn:Hloop; simplify_eq/=.
  apply Execute_loop_slots in Hloop as (Hl & _); [|simpl; lia]. by rewrite Hl.
Qed.

(** C6, as stated, fails: a model that does not batch has max batch size 0
    and a store of one slot, and a request of one payload, more than the max
    batch size, is processed. *)
Lemma Execute_nonbatching_single_payload :
  max_batch_size (Context_new 0 None)
    < Z.of_nat (length [plain_timestep 1 1 [2; 3; 4]])
  /\ accumulator_ (Context_new 0 None) = [0]
  /\ (exec_ret <$> Execute (Context_new 0 None) [plain_timestep 1 1 [2; 3; 4]])
     = Some Success
  /\ (accumulator_ ∘ exec_context
        <$> Execute (Context_new 0 None) [plain_timestep 1 1 [2; 3; 4]])
     = Some [9]
  /\ (map (out_written ∘ output_context) ∘ exec_payloads
        <$> Execute (Context_new 0 None) [plain_timestep 1 1 [2; 3; 4]])
     = Some [Some (bytes_of_int32 9)].
Proof. repeat split; by vm_compute. Qed.

(** C6, amended: a request with more payloads than the store has slots,
    that is more than max(1, max batch size), is refused with
    [kBatchTooBig] before anything is done: the instance and the payloads,
    with their sources and outputs, are as they were, and no delay is
    slept. *)
Theorem Execute_batch_too_big (ctx : Context) (ps : list CustomPayload) :
  store_sized ctx ->
  Z.max 1 (max_batch_size ctx) < Z.of_nat (length ps) ->
  Execute ctx ps
  = Some {| exec_ret := kBatchTooBig; exec_context := ctx;
            exec_payloads := ps; exec_slept := None |}.
Proof.
  unfold store_sized, Execute. intros Hs Hlt.
  by destruct (Nat.ltb_spec (length (accumulator_ ctx)) (length ps)); [|lia].
Qed.

Lemma Execute_batch_too_big_witness :
  store_sized (Context_new 1 (Some 5))
  /\ Z.max 1 (max_batch_size (Context_new 1 (Some 5)))
     < Z.of_nat (length [plain_timestep 1 1 [2]; plain_timestep 1 1 [3]])
  /\ Execute (Context_new 1 (Some 5))
       [plain_timestep 1 1 [2]; plain_timestep 1 1 [3]]
     = Some {| exec_ret := kBatchTooBig;
               exec_context := Context_new 1 (Some 5);
               exec_payloads :=
                 [plain_timestep 1 1 [2]; plain_timestep 1 1 [3]];
               exec_slept := None |}.
Proof.
  split; [reflexivity|]. split; [reflexivity|].
  apply Execute_batch_too_big; reflexivity.
Defined.

(** ** The output *)

(** C8: for a payload whose step emits (READY is non-zero and the update is
    carried out), that has no error yet and asks for at least one output,
    the loop body asks the output callback once, for the first output name,
    with the shape [cnt] when the max batch size is 0 and [1; cnt]
    otherwise.  When the callback fails the payload gets [kOutputBuffer] and
    nothing is written; when it answers with a null buffer nothing is
    written and no error is recorded; otherwise the four bytes of the
    updated accumulator are written.  In each case the loop goes on with the
    next payload. *)
Theorem Execute_payload_output (mbs : Z) (pidx : nat) (accs : list Z)
    (p : CustomPayload) (cnt : Z) (sb rb ib : list byte)
    (s1 s2 s3 : list pull) (ready0 start0 a v : Z)
    (name : string) (names : list string) :
  batch_size p = 1 ->
  input_element_cnt_of (input_names p) (input_shape_dims p) = Some cnt ->
  GetInputTensor (input_source p "START") batch1_byte_size []
    = Some (Success, sb, s1) ->
  GetInputTensor (input_source p "READY") batch1_byte_size []
    = Some (Success, rb, s2) ->
  GetInputTensor (input_source p "INPUT")
      (wrap_uint64 (cnt * batch1_byte_size)) []
    = Some (Success, ib, s3) ->
  read_int32 rb 0 = Some ready0 ->
  ready0 <> 0 ->
  read_int32 sb 0 = Some start0 ->
  accs !! pidx = Some a ->
  update_accumulator start0 ib cnt a = Some v ->
  error_code p = Success ->
  required_output_names p = name :: names ->
  exists p',
    Execute_payload mbs pidx accs p = Some (<[pidx := v]> accs, p')
    /\ out_requests (output_context p')
       = out_requests (output_context p)
           ++ [{| req_name := name;
                  req_shape := if decide (mbs = 0) then [cnt] else [1; cnt];
                  req_byte_size := 4 |}]
    /\ match out_answer (output_context p) with
       | OutputFail =>
           error_code p' = kOutputBuffer
           /\ out_written (output_context p') = out_written (output_context p)
       | OutputNull =>
           error_code p' = Success
           /\ out_written (output_context p') = out_written (output_context p)
       | OutputBuffer =>
           error_code p' = Success
           /\ out_written (output_context p') = Some (bytes_of_int32 v)
       end
    /\ forall rest,
         Execute_loop mbs pidx accs (p :: rest)
         = '(accs', rest') ←
             Execute_loop mbs (S pidx) (<[pidx := v]> accs) rest;
           Some (accs', p' :: rest').
Proof.
  intros Hb Hcnt H1 H2 H3 Hready Hnz Hstart Ha Hupd Herr Hout.
  assert (Hbody : exists p',
    Execute_payload mbs pidx accs p = Some (<[pidx := v]> accs, p')
    /\ p' = write_output mbs cnt v
              (pulled (pulled (pulled p "START" s1) "READY" s2) "INPUT" s3)).
  { eexists. split; [|done]. rewrite Execute_payload_unfold.
    rewrite decide_True by done. rewrite Hcnt. simpl.
    rewrite H1, H2, H3. simpl. unfold sequence_step.
    rewrite Hready. simpl. rewrite decide_False by done.
    rewrite Hstart. simpl. rewrite Ha. simpl. by rewrite Hupd. }
  destruct Hbody as (p' & Hp' & ->). eexists. split; [done|].
  split; [|split].
  - unfold write_output. simpl. rewrite Herr, Hout. simpl.
    by destruct (out_answer (output_context p)), (decide (mbs = 0)).
  - unfold write_output. simpl. rewrite Herr, Hout. simpl.
    by destruct (out_answer (output_context p)).
  - intros rest. cbn [Execute_loop]. by rewrite Hp'.
Qed.

(** ** Chunk boundaries *)

Lemma write_output_outcome (mbs cnt v : Z) (p q : CustomPayload) :
  error_code p = error_code q ->
  required_output_names p = required_output_names q ->
  output_context p = output_context q ->
  error_code (write_output mbs cnt v p) = error_code (write_output mbs cnt v q)
  /\ output_context (write_output mbs cnt v p)
     = output_context (write_output mbs cnt v q).
Proof.
  intros He Hn Ho. unfold write_output. rewrite He, Hn, Ho.
  case_decide; [|done]. destruct (required_output_names q); [done|].
  by destruct (out_answer (output_context q)).
Qed.

Lemma sequence_step_outcome (mbs : Z) (pidx : nat) (accs : list Z)
    (p q : CustomPayload) (sb rb ib : list byte) (cnt : Z) :
  error_code p = error_code q ->
  required_output_names p = required_output_names q ->
  output_context p = output_context q ->
  outcome (sequence_step mbs pidx accs p sb rb ib cnt)
  = outcome (sequence_step mbs pidx accs q sb rb ib cnt).
Proof.
  intros He Hn Ho. unfold sequence_step.
  destruct (read_int32 rb 0) as [ready0|]; [|done]. simpl.
  case_decide; simpl; [by rewrite He, Ho|].
  destruct (read_int32 sb 0) as [start0|]; [|done]. simpl.
  destruct (accs !! pidx) as [a|]; [|done]. simpl.
  destruct (update_accumulator start0 ib cnt a) as [v|]; [|done]. simpl.
  by destruct (write_output_outcome mbs cnt v p q He Hn Ho) as [-> ->].
Qed.

(** X23: the boundaries between chunks of four bytes or more do not
    matter.  Two sources that deliver the same [E * 4] bytes for an input of
    [E] elements, cut into such chunks in two ways and followed by the null
    signal, are assembled to the same vector, and a payload processed with
    one or the other as its INPUT leaves the same store, error code and
    output. *)
Theorem chunk_boundaries_readable (cs1 cs2 : list (list byte))
    (rest : list pull) (E : Z) :
  0 <= E ->
  E * batch1_byte_size < 2 ^ 64 ->
  chunks_readable (chunks cs1) = true ->
  chunks_readable (chunks cs2) = true ->
  concat cs1 = concat cs2 ->
  byte_size cs1 = E * batch1_byte_size ->
  GetInputTensor (chunks cs1 ++ PullNull :: rest) (E * batch1_byte_size) []
    = Some (Success, concat cs1, rest)
  /\ GetInputTensor (chunks cs2 ++ PullNull :: rest) (E * batch1_byte_size) []
     = Some (Success, concat cs1, rest)
  /\ forall (mbs : Z) (pidx : nat) (accs : list Z) (p : CustomPayload),
       input_element_cnt_of (input_names p) (input_shape_dims p) = Some E ->
       outcome (Execute_payload mbs pidx accs
                  (pulled p "INPUT" (chunks cs1 ++ PullNull :: rest)))
       = outcome (Execute_payload mbs pidx accs
                    (pulled p "INPUT" (chunks cs2 ++ PullNull :: rest))).
Proof.
  intros HE Hmax Hr1 Hr2 Hcat Hsize.
  assert (Hsize2 : byte_size cs2 = E * batch1_byte_size).
  { unfold byte_size in *. by rewrite <- Hcat. }
  assert (H1 : GetInputTensor (chunks cs1 ++ PullNull :: rest)
                 (E * batch1_byte_size) []
               = Some (Success, concat cs1, rest)).
  { rewrite GetInputTensor_ends by (done || lia).
    by rewrite decide_True by done. }
  assert (H2 : GetInputTensor (chunks cs2 ++ PullNull :: rest)
                 (E * batch1_byte_size) []
               = Some (Success, concat cs1, rest)).
  { rewrite GetInputTensor_ends by (done || lia).
    rewrite decide_True by done. by rewrite Hcat. }
  do 2 (split; [done|]). intros mbs pidx accs p Hcnt.
  rewrite !Execute_payload_unfold. cbn [batch_size pulled set_input_context
    input_names input_shape_dims].
  case_decide; [|done]. rewrite Hcnt. cbn [mbind option_bind].
  rewrite !(input_source_pulled_ne _ "INPUT" "START") by done.
  rewrite !(input_source_pulled_ne _ "INPUT" "READY") by done.
  rewrite !input_source_pulled_eq.
  assert (Hw : wrap_uint64 (E * batch1_byte_size) = E * batch1_byte_size).
  { unfold wrap_uint64. apply Z.mod_small. unfold batch1_byte_size in *. lia. }
  rewrite Hw, H1, H2.
  destruct (GetInputTensor (input_source p "START") _ _)
    as [[[e1 sb] s1]|]; [|done].
  destruct (GetInputTensor (input_source p "READY") _ _)
    as [[[e2 rb] s2]|]; cbn [option_bind mbind]; repeat case_decide;
    try done.
  all: by apply sequence_step_outcome.
Qed.

(** C9 at the failing input: the eight bytes of the values 1 and 2, cut
    after the second byte in one source and in one chunk in the other.  The
    claim has both assembled to the same vector and the step give the same
    accumulator; the source cut after the second byte makes the loop read
    four bytes at the start of a two-byte chunk, outside the chunk, so that
    neither the assembly nor the step that consumes it has a defined
    result, while the other source is assembled and the accumulator set to
    3. *)
Theorem chunk_boundary_short_chunk_undefined :
  concat two_chunks = int32_tensor [1; 2]
  /\ GetInputTensor (chunks two_chunks ++ [PullNull])
       (2 * batch1_byte_size) [] = None
  /\ GetInputTensor (whole (int32_tensor [1; 2])) (2 * batch1_byte_size) []
     = Some (Success, int32_tensor [1; 2], [])
  /\ Execute_payload 4 0 [0] (misaligned_timestep 1) = None
  /\ fst <$> Execute_payload 4 0 [0] (plain_timestep 1 1 [1; 2]) = Some [3].
Proof. repeat split; by vm_compute. Qed.

(** ** The state machine on well-formed timesteps *)

Lemma sequence_step_not_ready (mbs : Z) (pidx : nat) (accs : list Z)
    (p : CustomPayload) (sb rb ib : list byte) (cnt : Z) :
  read_int32 rb 0 = Some 0 ->
  sequence_step mbs pidx accs p sb rb ib cnt = Some (accs, p).
Proof. intros Hr. unfold sequence_step. by rewrite Hr. Qed.

Lemma sequence_step_start (mbs : Z) (pidx : nat) (accs : list Z)
    (p : CustomPayload) (sb rb ib : list byte) (n : nat)
    (ready0 start0 a : Z) :
  read_int32 rb 0 = Some ready0 -> ready0 <> 0 ->
  read_int32 sb 0 = Some start0 -> start0 <> 0 ->
  accs !! pidx = Some a ->
  (0 < n)%nat -> length ib = (4 * n)%nat ->
  sequence_step mbs pidx accs p sb rb ib (Z.of_nat n)
  = Some (<[pidx := wrap_int32 (sum_list (decode_int32s ib))]> accs,
          write_output mbs (Z.of_nat n)
            (wrap_int32 (sum_list (decode_int32s ib))) p).
Proof.
  intros Hr Hrz Hs Hsz Ha Hn Hlen. unfold sequence_step.
  rewrite Hr. simpl. rewrite decide_False by done. rewrite Hs. simpl.
  rewrite Ha. simpl. by rewrite (update_accumulator_set _ _ n) by done.
Qed.

Lemma sequence_step_continue (mbs : Z) (pidx : nat) (accs : list Z)
    (p : CustomPayload) (sb rb ib : list byte) (n : nat) (ready0 a : Z) :
  read_int32 rb 0 = Some ready0 -> ready0 <> 0 ->
  read_int32 sb 0 = Some 0 ->
  accs !! pidx = Some a -> is_int32 a ->
  length ib = (4 * n)%nat ->
  sequence_step mbs pidx accs p sb rb ib (Z.of_nat n)
  = Some (<[pidx := wrap_int32 (a + sum_list (decode_int32s ib))]> accs,
          write_output mbs (Z.of_nat n)
            (wrap_int32 (a + sum_list (decode_int32s ib))) p).
Proof.
  intros Hr Hrz Hs Ha Hint Hlen. unfold sequence_step.
  rewrite Hr. simpl. rewrite decide_False by done. rewrite Hs. simpl.
  rewrite Ha. simpl. by rewrite (update_accumulator_add _ n) by done.
Qed.

Lemma length_int32_tensor (l : list Z) :
  length (int32_tensor l) = (4 * length l)%nat.
Proof.
  unfold int32_tensor. induction l as [|x l IH]; [done|].
  cbn [map concat]. rewrite length_app, IH. simpl. lia.
Qed.

Lemma decode_int32_tensor (l : list Z) :
  Forall is_int32 l -> decode_int32s (int32_tensor l) = l.
Proof.
  unfold int32_tensor. induction 1 as [|x l Hx _ IH]; [done|].
  cbn [map concat]. unfold bytes_of_int32 at 1.
  cbn [app decode_int32s]. rewrite IH. f_equal.
  pose proof (int32_of_bytes_of_int32 x) as Hd.
  unfold bytes_of_int32 in Hd. cbn [decode_int32s] in Hd.
  injection Hd as ->. by apply wrap_int32_id.
Qed.

Lemma read_int32_tensor_head (x : Z) (l : list Z) :
  is_int32 x -> read_int32 (int32_tensor (x :: l)) 0 = Some x.
Proof.
  intros Hx. unfold int32_tensor. cbn [map concat].
  unfold bytes_of_int32 at 1. cbn [app].
  rewrite (read_int32_drop _ 0 _ _ _ _ _ eq_refl).
  pose proof (int32_of_bytes_of_int32 x) as Hd.
  unfold bytes_of_int32 in Hd. cbn [decode_int32s] in Hd.
  injection Hd as ->. by rewrite wrap_int32_id.
Qed.

Lemma GetInputTensor_whole (content : list byte) (expected : Z) :
  (4 <= length content)%nat ->
  Z.of_nat (length content) = expected ->
  expected < 2 ^ 64 ->
  GetInputTensor (whole content) expected [] = Some (Success, content, []).
Proof.
  intros Hread Hlen Hmax.
  assert (Hsize : byte_size [content] = expected).
  { unfold byte_size. simpl. by rewrite app_nil_r. }
  assert (Hcr : chunks_readable (chunks [content]) = true).
  { unfold chunks_readable. cbn [chunks map forallb].
    rewrite andb_true_r. by apply Nat.leb_le. }
  change (whole content) with (chunks [content] ++ [PullNull]).
  rewrite GetInputTensor_ends by (done || lia).
  rewrite decide_True by done. simpl. by rewrite app_nil_r.
Qed.

Lemma input_source_timestep (shape : list Z) (st rd inp : list pull)
    (answer : OutputAnswer) :
  input_source (timestep shape st rd inp answer) "START" = st
  /\ input_source (timestep shape st rd inp answer) "READY" = rd
  /\ input_source (timestep shape st rd inp answer) "INPUT" = inp.
Proof.
  unfold input_source, timestep. cbn [input_context].
  rewrite lookup_insert_eq.
  rewrite lookup_insert_ne, lookup_insert_eq by done.
  by rewrite !lookup_insert_ne, lookup_insert_eq by done.
Qed.

(** The loop body on a timestep whose tensors come in one chunk each is the
    state machine on these tensors. *)
Lemma Execute_payload_plain_timestep (mbs : Z) (pidx : nat) (accs : list Z)
    (s r : Z) (l : list Z) :
  l <> [] ->
  Z.of_nat (length l) * 4 < 2 ^ 64 ->
  exists p,
    Execute_payload mbs pidx accs (plain_timestep s r l)
    = sequence_step mbs pidx accs p (int32_tensor [s]) (int32_tensor [r])
        (int32_tensor l) (Z.of_nat (length l))
    /\ error_code p = Success
    /\ required_output_names p = ["OUTPUT"%string]
    /\ output_context p = fresh_output OutputBuffer.
Proof.
  intros Hne Hmax. eexists. rewrite Execute_payload_unfold.
  unfold plain_timestep.
  destruct (input_source_timestep [Z.of_nat (length l)]
              (whole (int32_tensor [s])) (whole (int32_tensor [r]))
              (whole (int32_tensor l)) OutputBuffer) as (-> & -> & ->).
  cbn [batch_size timestep input_names input_shape_dims].
  rewrite decide_True by done.
  cbn [input_element_cnt_of String.eqb Ascii.eqb Bool.eqb head mbind
       option_bind].
  assert (Hw : wrap_uint64 (Z.of_nat (length l) * batch1_byte_size)
               = Z.of_nat (length (int32_tensor l))).
  { rewrite length_int32_tensor. unfold wrap_uint64, batch1_byte_size.
    rewrite Z.mod_small; lia. }
  assert (Hb : Z.of_nat (length (int32_tensor l)) < 2 ^ 64).
  { rewrite length_int32_tensor. lia. }
  assert (Hr : (4 <= length (int32_tensor l))%nat).
  { rewrite length_int32_tensor. destruct l; [done|simpl; lia]. }
  rewrite Hw.
  rewrite (GetInputTensor_whole (int32_tensor [s])) by (cbn; (done || lia)).
  cbn [mbind option_bind]. rewrite decide_True by done.
  rewrite (GetInputTensor_whole (int32_tensor [r])) by (cbn; (done || lia)).
  cbn [mbind option_bind]. rewrite decide_True by done.
  rewrite (GetInputTensor_whole (int32_tensor l)) by done.
  cbn [mbind option_bind]. rewrite decide_True by done.
  split; [reflexivity|]. done.
Qed.

Lemma sum_list_app (l1 l2 : list Z) :
  sum_list (l1 ++ l2) = sum_list l1 + sum_list l2.
Proof. unfold sum_list. induction l1 as [|x l1 IH]; simpl; lia. Qed.

(** One ready timestep at slot 0: the accumulator becomes [v] and [v] is
    written to the output. *)
Lemma Execute_ready_timestep (ctx : Context) (a s v : Z) (l : list Z) :
  accumulator_ ctx !! 0%nat = Some a ->
  timestep_ok s l ->
  (s <> 0 /\ l <> [] /\ v = wrap_int32 (sum_list l))
  \/ (s = 0 /\ is_int32 a /\ v = wrap_int32 (a + sum_list l)) ->
  exists r,
    Execute ctx [plain_timestep s 1 l] = Some r
    /\ exec_ret r = Success
    /\ accumulator_ (exec_context r) = <[0%nat := v]> (accumulator_ ctx)
    /\ emitted r = [Some (bytes_of_int32 v)].
Proof.
  intros Ha (Hs & Hnil & Hl & Hmax) Hv.
  destruct (Execute_payload_plain_timestep (max_batch_size ctx) 0
              (accumulator_ ctx) s 1 l Hnil Hmax) as (p & Hp & He & Hn & Ho).
  assert (Hstep : sequence_step (max_batch_size ctx) 0 (accumulator_ ctx) p
                    (int32_tensor [s]) (int32_tensor [1]) (int32_tensor l)
                    (Z.of_nat (length l))
                  = Some (<[0%nat := v]> (accumulator_ ctx),
                          write_output (max_batch_size ctx)
                            (Z.of_nat (length l)) v p)).
  { pose proof (decode_int32_tensor l Hl) as Hdec.
    destruct Hv as [(Hsz & Hne & ->)|(-> & Hint & ->)].
    - rewrite (sequence_step_start _ _ _ _ _ _ _ (length l) 1 s a);
        [by rewrite Hdec|done|done|by apply read_int32_tensor_head|done|done
        | |apply length_int32_tensor].
      destruct l; [done|simpl; lia].
    - rewrite (sequence_step_continue _ _ _ _ _ _ _ (length l) 1 a);
        [by rewrite Hdec|done|done|done|done|done|apply length_int32_tensor]. }
  apply lookup_lt_Some in Ha as Hlen.
  unfold Execute.
  destruct (Nat.ltb_spec (length (accumulator_ ctx))
              (length [plain_timestep s 1 l])); [simpl in *; lia|].
  cbn [Execute_loop]. rewrite Hp, Hstep. cbn [mbind option_bind].
  eexists. split; [done|]. cbn [exec_ret exec_context accumulator_].
  do 2 (split; [done|]).
  unfold emitted, write_output. cbn [exec_payloads map compose].
  by rewrite He, Hn, Ho.
Qed.

(** Steps with START 0 and READY 1 at slot 0, one call each: after each of
    them the value written out is the 32-bit sum of the accumulator the run
    began with and of all the inputs so far. *)
Lemma Execute_calls_continue (ls : list (list Z)) :
  forall (ctx : Context) (a : Z),
  accumulator_ ctx !! 0%nat = Some a ->
  is_int32 a ->
  Forall (timestep_ok 0) ls ->
  exists rs,
    Execute_calls ctx (map (fun l => [plain_timestep 0 1 l]) ls) = Some rs
    /\ length rs = length ls
    /\ forall k r, rs !! k = Some r ->
         emitted r
         = [Some (bytes_of_int32
                    (wrap_int32 (a + sum_list (concat (take (S k) ls)))))].
Proof.
  induction ls as [|l ls IH]; intros ctx a Ha Hint Hok.
  - exists []. by repeat split.
  - apply Forall_cons in Hok as [Hl Hok].
    destruct (Execute_ready_timestep ctx a 0 (wrap_int32 (a + sum_list l)) l)
      as (r & Hr & _ & Hacc & Hem); [done|done|by right|].
    destruct (IH (exec_context r) (wrap_int32 (a + sum_list l)))
      as (rs & Hrs & Hlen & Hout); [|apply wrap_int32_range|done|].
    { rewrite Hacc. apply list_lookup_insert_eq.
      by apply lookup_lt_Some in Ha. }
    exists (r :: rs). cbn [map Execute_calls]. rewrite Hr. simpl.
    rewrite Hrs. simpl. split; [done|]. split; [by rewrite Hlen|].
    intros [|k] r' Hk; simplify_eq/=.
    + by rewrite app_nil_r.
    + rewrite (Hout k r' Hk). do 3 f_equal.
      rewrite sum_list_app, wrap_int32_add_l. by rewrite Z.add_assoc.
Qed.

(** The running sum where every step brings at least one element, in one
    chunk: a step with START and READY non-zero followed by steps with
    START 0 and READY 1 writes out, after each of them, the 32-bit sum of
    all the inputs since and including the start step. *)
Lemma Execute_calls_sequence (ctx : Context) (a s : Z) (l0 : list Z)
    (ls : list (list Z)) :
  accumulator_ ctx !! 0%nat = Some a ->
  s <> 0 ->
  timestep_ok s l0 ->
  Forall (timestep_ok 0) ls ->
  exists r0 rs,
    Execute_calls ctx
      ([plain_timestep s 1 l0] :: map (fun l => [plain_timestep 0 1 l]) ls)
    = Some (r0 :: rs)
    /\ emitted r0 = [Some (bytes_of_int32 (wrap_int32 (sum_list l0)))]
    /\ forall k r, rs !! k = Some r ->
         emitted r
         = [Some (bytes_of_int32
                    (wrap_int32
                       (sum_list (l0 ++ concat (take (S k) ls)))))].
Proof.
  intros Ha Hs Hok0 Hok.
  destruct (Execute_ready_timestep ctx a s (wrap_int32 (sum_list l0)) l0)
    as (r0 & Hr0 & _ & Hacc & Hem);
    [done|done|left; by destruct Hok0 as (_ & ? & _)|].
  destruct (Execute_calls_continue ls (exec_context r0)
              (wrap_int32 (sum_list l0)))
    as (rs & Hrs & _ & Hout); [|apply wrap_int32_range|done|].
  { rewrite Hacc. apply list_lookup_insert_eq. by apply lookup_lt_Some in Ha. }
  exists r0, rs. cbn [Execute_calls]. rewrite Hr0. simpl. rewrite Hrs. simpl.
  do 2 (split; [done|]). intros k r Hk. rewrite (Hout k r Hk).
  by rewrite sum_list_app, wrap_int32_add_l.
Qed.

(** ** The empty INPUT *)

Lemma input_element_cnt_of_absent (names : list string) :
  forall dims : list (list Z),
  "INPUT"%string ∉ names -> input_element_cnt_of names dims = Some 0.
Proof.
  induction names as [|name names IH]; intros dims Hnot; [done|].
  apply not_elem_of_cons in Hnot as [Hne Hnot]. cbn [input_element_cnt_of].
  destruct (String.eqb_spec name "INPUT"); [congruence|]. by apply IH.
Qed.

Lemma Execute_loop_undefined (mbs : Z) (p : CustomPayload)
    (ps : list CustomPayload) :
  (forall pidx accs, Execute_payload mbs pidx accs p = None) ->
  forall (i pidx : nat) (accs : list Z),
  ps !! i = Some p -> Execute_loop mbs pidx accs ps = None.
Proof.
  intros Hp. induction ps as [|q ps IH]; intros i pidx accs Hi; [done|].
  cbn [Execute_loop]. destruct i as [|i]; simplify_eq/=.
  - by rewrite Hp.
  - destruct (Execute_payload mbs pidx accs q) as [[accs1 q1]|]; [|done].
    simpl. by rewrite (IH i).
Qed.

(** C10: a payload with an INPUT of no element, in particular one that
    lists no input named INPUT, whose START and READY are non-zero and whose
    INPUT is assembled to the empty vector, makes [Execute] read element 0
    of that empty vector: the set branch reads [input[0]] before it looks at
    the element count, and the call has no defined result. *)
Theorem Execute_set_reads_empty_input (ctx : Context)
    (ps : list CustomPayload) (i : nat) (p : CustomPayload)
    (sb rb : list byte) (s1 s2 s3 : list pull) (start0 ready0 : Z) :
  (length ps <= length (accumulator_ ctx))%nat ->
  ps !! i = Some p ->
  batch_size p = 1 ->
  "INPUT"%string ∉ input_names p
  \/ input_element_cnt_of (input_names p) (input_shape_dims p) = Some 0 ->
  GetInputTensor (input_source p "START") batch1_byte_size []
    = Some (Success, sb, s1) ->
  GetInputTensor (input_source p "READY") batch1_byte_size []
    = Some (Success, rb, s2) ->
  GetInputTensor (input_source p "INPUT") 0 [] = Some (Success, [], s3) ->
  read_int32 sb 0 = Some start0 ->
  start0 <> 0 ->
  read_int32 rb 0 = Some ready0 ->
  ready0 <> 0 ->
  Execute ctx ps = None.
Proof.
  intros Hlen Hi Hb Hcnt H1 H2 H3 Hstart Hs Hready Hr.
  assert (Hcnt0 : input_element_cnt_of (input_names p) (input_shape_dims p)
                  = Some 0).
  { destruct Hcnt as [Hnot|]; [|done]. by apply input_element_cnt_of_absent. }
  unfold Execute.
  destruct (Nat.ltb_spec (length (accumulator_ ctx)) (length ps)); [lia|].
  rewrite (Execute_loop_undefined _ p ps) with (i := i); [done| |done].
  intros pidx accs. rewrite Execute_payload_unfold.
  rewrite decide_True by done. rewrite Hcnt0. simpl.
  change (wrap_uint64 (0 * batch1_byte_size)) with 0.
  rewrite H1, H2, H3. simpl. unfold sequence_step.
  rewrite Hready. simpl. rewrite decide_False by done.
  rewrite Hstart. simpl. destruct (accs !! pidx); [|done]. simpl.
  by rewrite update_accumulator_set_empty.
Qed.

Lemma Execute_set_reads_empty_input_witness :
  Execute (Context_new 4 None) [plain_timestep 0 0 [7]; start_without_input]
  = None.
Proof.
  apply (Execute_set_reads_empty_input _ _ 1%nat start_without_input
           (int32_tensor [1]) (int32_tensor [1]) [] [] [] 1 1);
    [vm_compute; lia | reflexivity | reflexivity | right; reflexivity
    | reflexivity | reflexivity | reflexivity | reflexivity | lia
    | reflexivity | lia].
Defined.

(** C1 at the failing input: [Execute] on a start step (READY and START
    non-zero) with an INPUT of shape [0], assembled to the empty vector,
    does not set the accumulator to the empty sum: it reads [input[0]]
    outside the vector and has no defined result. *)
Theorem Execute_empty_start_undefined :
  Execute (Context_new 4 None) [empty_start] = None.
Proof. by vm_compute. Qed.

(** C2 at the failing input: a start step with an INPUT of no element,
    followed by one step with START 0, READY 1 and INPUT [5].  The claim
    gives 5 as the value emitted after the second step; the first call
    already reads outside the empty vector and the run has no defined
    result. *)
Theorem Execute_calls_empty_start_undefined :
  Execute_calls (Context_new 4 None) [[empty_start]; [plain_timestep 0 1 [5]]]
  = None.
Proof. by vm_compute. Qed.

(** ** Instances *)

Lemma Execute_isolates_payloads_witness :
  exists r,
    Execute (Context_new 4 None) mixed_batch = Some r
    /\ exec_ret r = Success
    /\ length (exec_payloads r) = length mixed_batch
    /\ forall j p, mixed_batch !! j = Some p ->
         exists a r1,
           accumulator_ (Context_new 4 None) !! j = Some a
           /\ Execute (single_slot (Context_new 4 None) a) [p] = Some r1
           /\ exec_ret r1 = Success
           /\ exec_payloads r !! j = exec_payloads r1 !! 0%nat
           /\ accumulator_ (exec_context r) !! j
              = accumulator_ (exec_context r1) !! 0%nat.
Proof.
  apply (Execute_isolates_payloads (Context_new 4 None) mixed_batch).
  - vm_compute. lia.
  - intros j p a Hp Ha.
    destruct j as [|[|[|j]]]; simpl in Hp, Ha;
      inversion Hp; inversion Ha; subst;
      eexists; vm_compute; reflexivity.
Defined.

Lemma Execute_failed_slot_unchanged_witness :
  exists r,
    Execute (Context_new 4 None) mixed_batch = Some r
    /\ accumulator_ (exec_context r) !! 1%nat
       = accumulator_ (Context_new 4 None) !! 1%nat
    /\ (exec_ret r = Success ->
        exists p', exec_payloads r !! 1%nat = Some p'
                   /\ error_code p' <> Success).
Proof.
  eexists. split; [vm_compute; reflexivity|].
  eapply (Execute_failed_slot_unchanged (Context_new 4 None) mixed_batch
            _ 1%nat short_input).
  - vm_compute. reflexivity.
  - reflexivity.
  - right; right; right. exists 5. split; [reflexivity|].
    vm_compute. discriminate.
Defined.

Lemma Execute_payload_output_witness :
  exists p',
    Execute_payload 0 0 [0] (plain_timestep 1 1 [2; 3; 4])
    = Some (<[0%nat := 9]> [0], p')
    /\ out_requests (output_context p')
       = out_requests (output_context (plain_timestep 1 1 [2; 3; 4]))
           ++ [{| req_name := "OUTPUT";
                  req_shape := if decide (0 = 0) then [3] else [1; 3];
                  req_byte_size := 4 |}]
    /\ match out_answer (output_context (plain_timestep 1 1 [2; 3; 4])) with
       | OutputFail =>
           error_code p' = kOutputBuffer
           /\ out_written (output_context p')
              = out_written (output_context (plain_timestep 1 1 [2; 3; 4]))
       | OutputNull =>
           error_code p' = Success
           /\ out_written (output_context p')
              = out_written (output_context (plain_timestep 1 1 [2; 3; 4]))
       | OutputBuffer =>
           error_code p' = Success
           /\ out_written (output_context p') = Some (bytes_of_int32 9)
       end
    /\ forall rest,
         Execute_loop 0 0 [0] (plain_timestep 1 1 [2; 3; 4] :: rest)
         = '(accs', rest') ← Execute_loop 0 1 (<[0%nat := 9]> [0]) rest;
           Some (accs', p' :: rest').
Proof.
  apply (Execute_payload_output 0 0 [0] (plain_timestep 1 1 [2; 3; 4]) 3
           (int32_tensor [1]) (int32_tensor [1]) (int32_tensor [2; 3; 4])
           [] [] [] 1 1 0 9 "OUTPUT" []);
    first [reflexivity | lia].
Defined.

(** * Further properties *)

(** ** Context::Init *)

Lemma string_eqb_true (s1 s2 : string) : String.eqb s1 s2 = true <-> s1 = s2.
Proof. apply String.eqb_eq. Qed.

Lemma Init_success_spec (CUSTOM_NO_GPU_DEVICE : Z) (inst : SequenceInstance) :
  Init CUSTOM_NO_GPU_DEVICE inst = Some Success
  <-> gpu_device_ inst = CUSTOM_NO_GPU_DEVICE
      /\ config_accepted (model_config_ inst).
Proof.
  unfold Init, config_accepted.
  destruct inst as [nm [mbs ins outs batching params] gpu ctx]. cbn.
  split.
  - intros H. case_decide as Hgpu; [done|].
    try apply dec_stable in Hgpu. split; [done|].
    destruct batching as [[controls]|]; [|done]. cbn in H.
    case_decide as Hc; [done|]. try apply dec_stable in Hc.
    destruct controls as [|[c0] [|[c1] [|? ?]]]; try done. cbn in H.
    destruct (_ || _) eqn:Hnames; [|done]. cbn in H.
    case_decide as Hi; [done|]. try apply dec_stable in Hi.
    destruct ins as [|[iname itype idims] [|? ?]]; try done. cbn in H.
    case_decide as Hid; [done|]. try apply dec_stable in Hid.
    destruct idims as [|idim [|? ?]]; try done.
    case_decide as Hit; [done|]. try apply dec_stable in Hit.
    destruct (String.eqb iname "INPUT") eqn:Hin; [|done]. cbn in H.
    case_decide as Ho; [done|]. try apply dec_stable in Ho.
    destruct outs as [|[oname otype odims] [|? ?]]; try done. cbn in H.
    case_decide as Hod; [done|]. try apply dec_stable in Hod.
    destruct odims as [|odim [|? ?]]; try done. cbn in H.
    case_decide as Hdim; [done|]. try apply dec_stable in Hdim.
    case_decide as Hot; [done|]. try apply dec_stable in Hot.
    destruct (String.eqb oname "OUTPUT") eqn:Hon; [|done].
    apply string_eqb_true in Hin, Hon. subst.
    exists c0, c1, idim. repeat split.
    apply orb_prop in Hnames as [Hn|Hn]; apply andb_prop in Hn as [H0 H1];
      apply string_eqb_true in H0, H1; auto.
  - intros (-> & c0 & c1 & dim & -> & Hnames & -> & ->). cbn.
    rewrite !decide_False by (intros Hne; by apply Hne).
    by destruct Hnames as [[-> ->]|[-> ->]].
Qed.

(** X1: [Init] returns [Success] exactly on the configurations of the
    accepted kind, for an instance that is not bound to a GPU. *)
Theorem Init_success_iff (CUSTOM_NO_GPU_DEVICE : Z) (inst : SequenceInstance) :
  Init CUSTOM_NO_GPU_DEVICE inst = Some Success
  <-> gpu_device_ inst = CUSTOM_NO_GPU_DEVICE
      /\ config_accepted (model_config_ inst).
Proof. apply Init_success_spec. Qed.

Lemma Init_total (CUSTOM_NO_GPU_DEVICE : Z) (inst : SequenceInstance) :
  is_Some (Init CUSTOM_NO_GPU_DEVICE inst).
Proof.
  unfold Init.
  destruct inst as [nm [mbs ins outs batching params] gpu ctx]. cbn.
  case_decide; [by eexists|].
  destruct batching as [[controls]|]; [|by eexists]. cbn.
  case_decide; [by eexists|].
  destruct controls as [|c0 [|c1 [|? ?]]]; try done. cbn.
  destruct (negb _); [by eexists|].
  case_decide; [by eexists|].
  destruct ins as [|input0 [|? ?]]; try done. cbn.
  case_decide; [by eexists|].
  destruct (mi_dims input0) as [|idim [|? ?]] eqn:Hid; try done.
  case_decide; [by eexists|].
  destruct (negb _); [by eexists|].
  case_decide; [by eexists|].
  destruct outs as [|output0 [|? ?]]; try done. cbn.
  case_decide; [by eexists|].
  destruct (mo_dims output0) as [|odim [|? ?]] eqn:Hod; try done. cbn.
  repeat case_decide; try by eexists.
  destruct (negb _); by eexists.
Qed.

(** X2: [Init] takes an element of a repeated field only after it has
    checked the size of the field: it has a defined result on every
    instance. *)
Theorem Init_defined (CUSTOM_NO_GPU_DEVICE : Z) (inst : SequenceInstance) :
  is_Some (Init CUSTOM_NO_GPU_DEVICE inst).
Proof. apply Init_total. Qed.

(** X3: the order in which the configuration lists the two control inputs
    does not matter to [Init]: with the list reversed it returns the same
    code. *)
Theorem Init_control_order (CUSTOM_NO_GPU_DEVICE : Z)
    (inst : SequenceInstance) :
  Init CUSTOM_NO_GPU_DEVICE (reverse_control_inputs inst)
  = Init CUSTOM_NO_GPU_DEVICE inst.
Proof.
  unfold Init, reverse_control_inputs.
  destruct inst as [nm [mbs ins outs batching params] gpu ctx]. cbn.
  case_decide; [done|].
  destruct batching as [[controls]|]; [|done]. cbn -[reverse].
  rewrite length_reverse. case_decide; [done|].
  destruct controls as [|[c0] [|[c1] [|? ?]]]; try done. cbn.
  by destruct (String.eqb c0 "START"), (String.eqb c1 "READY"),
       (String.eqb c0 "READY"), (String.eqb c1 "START").
Qed.

(** ** Context::GetInputTensor *)

Lemma GetInputTensor_loop_copies (src : list pull) :
  forall (expected total : Z) (input : list byte) err buf rest,
  GetInputTensor_loop src expected total input = Some (err, buf, rest) ->
  exists cs,
    buf = input ++ concat cs
    /\ chunks cs `prefix_of` src
    /\ rest `suffix_of` src.
Proof.
  induction src as [|a src IH]; intros expected total input err buf rest H.
  - cbn in H. simplify_eq. exists []. cbn. by rewrite app_nil_r.
  - destruct a as [| |c]; cbn [GetInputTensor_loop] in H.
    + simplify_eq. exists []. cbn. rewrite app_nil_r.
      repeat split; [apply prefix_nil|by apply suffix_cons_r].
    + simplify_eq. exists []. cbn. rewrite app_nil_r.
      repeat split; [apply prefix_nil|by apply suffix_cons_r].
    + destruct (read_int32 c 0); [|done]. cbn [mbind option_bind] in H.
      destruct (_ <? _).
      * simplify_eq. exists []. cbn. rewrite app_nil_r.
        repeat split; [apply prefix_nil|by apply suffix_cons_r].
      * apply IH in H as (cs & Hbuf & Hpre & Hsuf).
        exists (c :: cs). rewrite Hbuf. cbn. rewrite <- app_assoc.
        repeat split; [by apply prefix_cons|by apply suffix_cons_r].
Qed.

(** X4: whatever code it returns, [GetInputTensor] only appends to the
    vector, and what it appends is the content of chunks taken whole and in
    order from the front of the source; the source is left at one of its
    suffixes. *)
Theorem GetInputTensor_copies_whole_chunks (src : list pull) (expected : Z)
    (input : list byte) (err : ErrorCode) (buf : list byte)
    (rest : list pull) :
  GetInputTensor src expected input = Some (err, buf, rest) ->
  exists cs,
    buf = input ++ concat cs
    /\ chunks cs `prefix_of` src
    /\ rest `suffix_of` src.
Proof. apply GetInputTensor_loop_copies. Qed.

Lemma chunks_fit_cons expected c src :
  chunks_fit expected (PullChunk c :: src) = true ->
  expected + Z.of_nat (length c) < 2 ^ 64 /\ chunks_fit expected src = true.
Proof.
  unfold chunks_fit. cbn [forallb]. intros H.
  apply andb_prop in H as [H1 H2]. by apply Z.ltb_lt in H1.
Qed.

Lemma GetInputTensor_loop_bounded (src : list pull) :
  forall (expected total : Z) (input : list byte) err buf rest,
  0 <= total <= expected ->
  chunks_fit expected src = true ->
  GetInputTensor_loop src expected total input = Some (err, buf, rest) ->
  Z.of_nat (length buf) <= Z.of_nat (length input) + (expected - total)
  /\ (err = Success ->
      Z.of_nat (length buf) = Z.of_nat (length input) + (expected - total)).
Proof.
  induction src as [|a src IH];
    intros expected total input err buf rest Htotal Hfit H.
  - cbn in H. case_decide; simplify_eq; split; (done || lia).
  - destruct a as [| |c]; cbn [GetInputTensor_loop] in H.
    + simplify_eq. split; [lia|done].
    + case_decide; simplify_eq; split; (done || lia).
    + destruct (read_int32 c 0); [|done]. cbn [mbind option_bind] in H.
      apply chunks_fit_cons in Hfit as [Hc Hfit].
      unfold wrap_uint64 in H. rewrite Z.mod_small in H by lia.
      destruct (Z.ltb_spec expected (total + Z.of_nat (length c))).
      * simplify_eq. split; [lia|done].
      * apply IH in H as [Hle Heq]; [|lia|done].
        rewrite length_app in Hle, Heq. split; [lia|].
        intros Hs. specialize (Heq Hs). lia.
Qed.

Lemma GetInputTensor_length_bound (src : list pull) (expected : Z)
    (input : list byte) (err : ErrorCode) (buf : list byte)
    (rest : list pull) :
  0 <= expected < 2 ^ 64 ->
  chunks_fit expected src = true ->
  GetInputTensor src expected input = Some (err, buf, rest) ->
  Z.of_nat (length buf) <= Z.of_nat (length input) + expected
  /\ (err = Success ->
      Z.of_nat (length buf) = Z.of_nat (length input) + expected).
Proof.
  intros Hexp Hfit H.
  apply GetInputTensor_loop_bounded in H as [Hle Heq]; [|lia|done].
  split; [lia|]. intros Hs. specialize (Heq Hs). lia.
Qed.

(** X5: [GetInputTensor] never copies more than the expected number of
    bytes to the vector, whatever code it returns, and when it returns
    [Success] it has copied exactly that number.  The expected size is a
    [size_t] and no chunk is so large that the 64-bit running total wraps
    around. *)
Theorem GetInputTensor_bounded (src : list pull) (expected : Z)
    (input : list byte) (err : ErrorCode) (buf : list byte)
    (rest : list pull) :
  0 <= expected < 2 ^ 64 ->
  chunks_fit expected src = true ->
  GetInputTensor src expected input = Some (err, buf, rest) ->
  Z.of_nat (length buf) <= Z.of_nat (length input) + expected
  /\ (err = Success ->
      Z.of_nat (length buf) = Z.of_nat (length input) + expected).
Proof. apply GetInputTensor_length_bound. Qed.

(** X6: a chunk shorter than four bytes leaves [GetInputTensor] without a
    defined result, whatever follows it: the function reads an [int32_t] at
    the start of every chunk it is given, before it looks at the size of
    the chunk.  In particular a chunk of no byte, which adds nothing to the
    total, is not skipped.  The chunks before it hold four bytes or more
    and do not exceed the expected size, so that the function gets to
    it. *)
Theorem GetInputTensor_short_chunk_no_result (cs : list (list byte))
    (c : list byte) (rest : list pull) (expected : Z) (input : list byte) :
  chunks_readable (chunks cs) = true ->
  byte_size cs <= expected < 2 ^ 64 ->
  (length c < 4)%nat ->
  GetInputTensor (chunks cs ++ PullChunk c :: rest) expected input = None.
Proof. apply GetInputTensor_short_chunk. Qed.

(** X22: a chunk of four bytes or more that takes the running total over
    the expected size is refused on the spot.  [GetInputTensor] returns
    [kInputSize] on the pull call that delivered it: the source is left
    right after that chunk, and the vector holds the chunks accepted before
    it and none of its bytes.  The chunks before it hold four bytes or more
    each, and the running total stays below 2^64. *)
Theorem GetInputTensor_refuses_overflowing_chunk (cs : list (list byte))
    (c : list byte) (rest : list pull) (expected : Z) (input : list byte) :
  chunks_readable (chunks cs) = true ->
  (4 <= length c)%nat ->
  byte_size cs <= expected ->
  expected < byte_size cs + Z.of_nat (length c) < 2 ^ 64 ->
  GetInputTensor (chunks cs ++ PullChunk c :: rest) expected input
  = Some (kInputSize, input ++ concat cs, rest).
Proof. apply GetInputTensor_size_exceeded. Qed.

Lemma GetInputTensor_loop_readable (src : list pull) :
  forall (expected total : Z) (input : list byte),
  chunks_readable src = true ->
  is_Some (GetInputTensor_loop src expected total input).
Proof.
  induction src as [|a src IH]; intros expected total input Hread.
  - by eexists.
  - destruct a as [| |c]; cbn [GetInputTensor_loop]; [by eexists..|].
    apply chunks_readable_cons in Hread as [Hc Hread].
    destruct (read_int32_readable c Hc) as [x ->]. cbn [mbind option_bind].
    destruct (_ <? _); [by eexists|by apply IH].
Qed.

(** X24: on a source whose chunks hold four bytes or more each,
    [GetInputTensor] has a defined result, whatever the expected size and
    the vector it is given: the only read outside a chunk is the one at the
    start of a chunk that is shorter. *)
Theorem GetInputTensor_readable_defined (src : list pull) (expected : Z)
    (input : list byte) :
  chunks_readable src = true ->
  is_Some (GetInputTensor src expected input).
Proof. apply GetInputTensor_loop_readable. Qed.

(** ** Context::Execute: what a call keeps *)

Lemma int32_of_bytes_range b0 b1 b2 b3 : is_int32 (int32_of_bytes b0 b1 b2 b3).
Proof. apply wrap_int32_range. Qed.

Lemma read_int32_range (buf : list byte) (e x : Z) :
  read_int32 buf e = Some x -> is_int32 x.
Proof.
  unfold read_int32. destruct (e <? 0); [done|].
  destruct (drop _ buf) as [|b0 [|b1 [|b2 [|b3 rest]]]]; try done.
  intros [= <-]. apply int32_of_bytes_range.
Qed.

Lemma accumulate_range (n : nat) (buf : list byte) :
  forall (e acc v : Z),
  accumulate n buf e acc = Some v -> is_int32 acc -> is_int32 v.
Proof.
  induction n as [|n IH]; intros e acc v H Hacc; simplify_eq/=; [done|].
  destruct (read_int32 buf e) as [x|]; simplify_eq/=.
  eapply IH; [done|apply wrap_int32_range].
Qed.

Lemma update_accumulator_range (start0 : Z) (buf : list byte) (cnt a v : Z) :
  update_accumulator start0 buf cnt a = Some v -> is_int32 a -> is_int32 v.
Proof.
  unfold update_accumulator. intros Hupd Ha. case_decide.
  - by eapply accumulate_range.
  - destruct (read_int32 buf 0) as [x|] eqn:Hx; simplify_eq/=.
    eapply accumulate_range; [done|by eapply read_int32_range].
Qed.

(** The three ways the loop body ends with a result: an error recorded
    before the state machine, a step that is not ready, and a step that
    updates the accumulator and goes on to the output. *)
Lemma Execute_payload_inv (mbs : Z) (pidx : nat) (accs accs' : list Z)
    (p p' : CustomPayload) :
  Execute_payload mbs pidx accs p = Some (accs', p') ->
  (accs' = accs /\ output_context p' = output_context p
   /\ error_code p' <> Success)
  \/ (accs' = accs /\ output_context p' = output_context p
      /\ error_code p' = error_code p)
  \/ (exists a v cnt q,
        accs !! pidx = Some a
        /\ accs' = <[pidx := v]> accs
        /\ (is_int32 a -> is_int32 v)
        /\ input_element_cnt_of (input_names p) (input_shape_dims p)
           = Some cnt
        /\ p' = write_output mbs cnt v q
        /\ error_code q = error_code p
        /\ output_context q = output_context p
        /\ required_output_names q = required_output_names p).
Proof.
  rewrite Execute_payload_unfold. intros H.
  case_decide; simplify_eq/=; [|by left].
  destruct (input_element_cnt_of _ _) as [cnt|] eqn:Hcnt; simplify_eq/=.
  destruct (GetInputTensor (input_source p "START") _ _)
    as [[[e1 sb] s1]|]; simplify_eq/=.
  case_decide; simplify_eq/=; [|by left].
  destruct (GetInputTensor (input_source p "READY") _ _)
    as [[[e2 rb] s2]|]; simplify_eq/=.
  case_decide; simplify_eq/=; [|by left].
  destruct (GetInputTensor (input_source p "INPUT") _ _)
    as [[[e3 ib] s3]|]; simplify_eq/=.
  case_decide; simplify_eq/=; [|by left].
  unfold sequence_step in H.
  destruct (read_int32 rb 0) as [ready0|]; simplify_eq/=.
  case_decide; simplify_eq/=; [by right; left|].
  destruct (read_int32 sb 0) as [start0|]; simplify_eq/=.
  destruct (accs !! pidx) as [a|] eqn:Ha; simplify_eq/=.
  destruct (update_accumulator _ _ _ _) as [v|] eqn:Hv; simplify_eq/=.
  right; right. eexists a, v, cnt, _. do 2 (split; [done|]).
  split; [by eapply update_accumulator_range|]. by repeat split.
Qed.

Lemma write_output_inv (mbs cnt v : Z) (q : CustomPayload) :
  (write_output mbs cnt v q = q
   /\ (error_code q <> Success \/ required_output_names q = []))
  \/ (exists name names,
        error_code q = Success
        /\ required_output_names q = name :: names
        /\ out_requests (output_context (write_output mbs cnt v q))
           = out_requests (output_context q)
               ++ [{| req_name := name;
                      req_shape :=
                        if decide (mbs = 0) then [cnt] else [1; cnt];
                      req_byte_size := 4 |}]
        /\ match out_answer (output_context q) with
           | OutputFail =>
               error_code (write_output mbs cnt v q) = kOutputBuffer
               /\ out_written (output_context (write_output mbs cnt v q))
                  = out_written (output_context q)
           | OutputNull =>
               error_code (write_output mbs cnt v q) = Success
               /\ out_written (output_context (write_output mbs cnt v q))
                  = out_written (output_context q)
           | OutputBuffer =>
               error_code (write_output mbs cnt v q) = Success
               /\ out_written (output_context (write_output mbs cnt v q))
                  = Some (bytes_of_int32 v)
           end).
Proof.
  unfold write_output. case_decide as He; [|left; by split; [|left]].
  destruct (required_output_names q) as [|name names] eqn:Hn;
    [left; by split; [|right]|].
  right. exists name, names. do 2 (split; [done|]).
  by destruct (out_answer (output_context q)), (decide (mbs = 0)).
Qed.

(** A call of [Execute] either refuses the batch and keeps everything, or
    returns [Success] with every slot of the batch processed by the loop
    body on its own and the other slots kept. *)
Lemma Execute_inv (ctx : Context) (ps : list CustomPayload)
    (r : ExecuteResult) :
  Execute ctx ps = Some r ->
  ((length (accumulator_ ctx) < length ps)%nat
   /\ r = {| exec_ret := kBatchTooBig; exec_context := ctx;
             exec_payloads := ps; exec_slept := None |})
  \/ ((length ps <= length (accumulator_ ctx))%nat
      /\ exec_ret r = Success
      /\ length (accumulator_ (exec_context r)) = length (accumulator_ ctx)
      /\ length (exec_payloads r) = length ps
      /\ (forall j, (length ps <= j)%nat ->
            accumulator_ (exec_context r) !! j = accumulator_ ctx !! j)
      /\ forall j p, ps !! j = Some p ->
           exists a a' p',
             accumulator_ ctx !! j = Some a
             /\ Execute_payload (max_batch_size ctx) 0 [a] p = Some ([a'], p')
             /\ exec_payloads r !! j = Some p'
             /\ accumulator_ (exec_context r) !! j = Some a').
Proof.
  unfold Execute. intros Hex.
  destruct (Nat.ltb_spec (length (accumulator_ ctx)) (length ps)) as [Hlt|Hle];
    [left; by simplify_eq/=|].
  destruct (Execute_loop _ _ _ _) as [[accs' ps']|] eqn:Hloop; simplify_eq/=.
  apply Execute_loop_slots in Hloop as (Hl & Hl' & Hout & Hin); [|simpl; lia].
  right. repeat split; try done.
  intros j Hj. apply Hout. lia.
Qed.

(** A property of what the loop body does to one payload and its slot holds
    of every payload of a call, when it also holds of a payload and a slot
    that are left alone. *)
Lemma Execute_payloadwise
    (P : option Z -> CustomPayload -> option Z -> CustomPayload -> Prop)
    (ctx : Context) (ps : list CustomPayload) (r : ExecuteResult) (j : nat)
    (p : CustomPayload) :
  (forall o, P o p o p) ->
  (forall a a' p',
     Execute_payload (max_batch_size ctx) 0 [a] p = Some ([a'], p') ->
     P (Some a) p (Some a') p') ->
  Execute ctx ps = Some r ->
  ps !! j = Some p ->
  exists p',
    exec_payloads r !! j = Some p'
    /\ P (accumulator_ ctx !! j) p (accumulator_ (exec_context r) !! j) p'.
Proof.
  intros Hrefl Hstep Hex Hp.
  apply Execute_inv in Hex as [[_ ->]|(_ & _ & _ & _ & _ & Hin)].
  - exists p. by split.
  - destruct (Hin j p Hp) as (a & a' & p' & Ha & Hbody & Hp' & Ha').
    exists p'. split; [done|]. rewrite Ha, Ha'. by apply Hstep.
Qed.

(** X7: a call of [Execute] keeps the number of slots of the store, and it
    keeps the accumulator of every slot beyond the payloads of the batch. *)
Theorem Execute_keeps_other_slots (ctx : Context) (ps : list CustomPayload)
    (r : ExecuteResult) :
  Execute ctx ps = Some r ->
  length (accumulator_ (exec_context r)) = length (accumulator_ ctx)
  /\ forall j, (length ps <= j)%nat ->
       accumulator_ (exec_context r) !! j = accumulator_ ctx !! j.
Proof.
  intros Hex.
  by apply Execute_inv in Hex as [[_ ->]|(_ & _ & Hl & _ & Hout & _)].
Qed.

(** The accumulators stay 32-bit values: when every accumulator of the
    store is in the range of [int32_t] before a call of [Execute], every
    accumulator is in that range after it. *)
Lemma Execute_int32_store (ctx : Context) (ps : list CustomPayload)
    (r : ExecuteResult) :
  Forall is_int32 (accumulator_ ctx) ->
  Execute ctx ps = Some r ->
  Forall is_int32 (accumulator_ (exec_context r)).
Proof.
  intros Hall Hex. rewrite Forall_lookup in Hall. apply Forall_lookup.
  apply Execute_inv in Hex as [[_ ->]|(_ & _ & _ & _ & Hout & Hin)]; [done|].
  intros j x Hx. destruct (decide (length ps <= j)%nat) as [Hj|Hj].
  - rewrite Hout in Hx by done. by eapply Hall.
  - destruct (lookup_lt_is_Some_2 ps j) as [p Hp]; [lia|].
    destruct (Hin j p Hp) as (a & a' & p' & Ha & Hbody & _ & Ha').
    simplify_eq. apply Hall in Ha.
    apply Execute_payload_inv in Hbody
      as [(? & _)|[(? & _)|(b & v & cnt & q & Hb & Hv & Hint & _)]];
      simplify_eq/=; [done..|]. by apply Hint.
Qed.


Lemma sequence_step_store_error_blind (mbs : Z) (pidx : nat)
    (accs : list Z) (p q : CustomPayload) (sb rb ib : list byte) (cnt : Z) :
  fst <$> sequence_step mbs pidx accs p sb rb ib cnt
  = fst <$> sequence_step mbs pidx accs q sb rb ib cnt.
Proof.
  unfold sequence_step.
  destruct (read_int32 rb 0) as [ready0|]; [|done]. simpl.
  case_decide; [done|].
  destruct (read_int32 sb 0) as [start0|]; [|done]. simpl.
  destruct (accs !! pidx) as [a|]; [|done]. simpl.
  by destruct (update_accumulator start0 ib cnt a).
Qed.

(** X8: the error code a payload comes with has no influence on the
    accumulators: the loop body leaves the same store whatever that code
    is.  In particular a step that is ready updates the accumulator of its
    slot even when the payload already carries an error. *)
Theorem Execute_payload_error_blind (mbs : Z) (pidx : nat) (accs : list Z)
    (p : CustomPayload) (err : ErrorCode) :
  fst <$> Execute_payload mbs pidx accs (set_error_code p err)
  = fst <$> Execute_payload mbs pidx accs p.
Proof.
  rewrite !Execute_payload_unfold.
  change (batch_size (set_error_code p err)) with (batch_size p).
  change (input_names (set_error_code p err)) with (input_names p).
  change (input_shape_dims (set_error_code p err))
    with (input_shape_dims p).
  change (input_source (set_error_code p err)) with (input_source p).
  case_decide; [|done].
  destruct (input_element_cnt_of _ _) as [cnt|]; [|done]. simpl.
  destruct (GetInputTensor (input_source p "START") _ _)
    as [[[e1 sb] s1]|]; [|done]. simpl. case_decide; [|done].
  destruct (GetInputTensor (input_source p "READY") _ _)
    as [[[e2 rb] s2]|]; [|done]. simpl. case_decide; [|done].
  destruct (GetInputTensor (input_source p "INPUT") _ _)
    as [[[e3 ib] s3]|]; [|done]. simpl. case_decide; [|done].
  apply sequence_step_store_error_blind.
Qed.

(** X9: [Execute] never clears an error and never asks for the output of a
    payload that came with one: a payload that enters a call with an error
    code other than [Success] leaves it with such a code and with its
    output as it was. *)
Theorem Execute_keeps_error (ctx : Context) (ps : list CustomPayload)
    (r : ExecuteResult) (j : nat) (p : CustomPayload) :
  Execute ctx ps = Some r ->
  ps !! j = Some p ->
  error_code p <> Success ->
  exists p',
    exec_payloads r !! j = Some p'
    /\ error_code p' <> Success
    /\ output_context p' = output_context p.
Proof.
  intros Hex Hp Herr.
  destruct (Execute_payloadwise
              (fun _ p _ p' => error_code p' <> Success
                               /\ output_context p' = output_context p)
              ctx ps r j p) as (p' & Hp' & H); [done| |done|done|by exists p'].
  intros a a' p' Hbody.
  apply Execute_payload_inv in Hbody
    as [(_ & ? & ?)|[(_ & ? & ?)|(b & v & cnt & q & _ & _ & _ & _ & -> & He
                                  & Ho & _)]];
    [done|by split; [congruence|]|].
  destruct (write_output_inv (max_batch_size ctx) cnt v q)
    as [[-> _]|(? & ? & ? & _)]; [|congruence].
  split; congruence.
Qed.

(** X10: a payload that asks for no output has none produced: [Execute]
    leaves its output as it was, without a request to the output
    callback. *)
Theorem Execute_no_output_asked (ctx : Context) (ps : list CustomPayload)
    (r : ExecuteResult) (j : nat) (p : CustomPayload) :
  Execute ctx ps = Some r ->
  ps !! j = Some p ->
  required_output_names p = [] ->
  exists p',
    exec_payloads r !! j = Some p'
    /\ output_context p' = output_context p.
Proof.
  intros Hex Hp Hnone.
  destruct (Execute_payloadwise
              (fun _ p _ p' => output_context p' = output_context p)
              ctx ps r j p) as (p' & Hp' & H); [done| |done|done|by exists p'].
  intros a a' p' Hbody.
  apply Execute_payload_inv in Hbody
    as [(_ & ? & _)|[(_ & ? & _)|(b & v & cnt & q & _ & _ & _ & _ & -> & _
                                  & Ho & Hn)]]; [done..|].
  destruct (write_output_inv (max_batch_size ctx) cnt v q)
    as [[-> _]|(? & ? & _ & ? & _)]; [done|congruence].
Qed.

(** X11: a call of [Execute] asks the output callback at most once for a
    payload: for the first output name the payload lists, whatever it lists
    after it, with an element size of four bytes and the shape [cnt], or
    [1; cnt] when the max batch size is not 0, [cnt] being the element count
    the payload declares for INPUT. *)
Theorem Execute_one_output_request (ctx : Context) (ps : list CustomPayload)
    (r : ExecuteResult) (j : nat) (p : CustomPayload) :
  Execute ctx ps = Some r ->
  ps !! j = Some p ->
  exists p',
    exec_payloads r !! j = Some p'
    /\ (out_requests (output_context p') = out_requests (output_context p)
        \/ exists name names cnt,
             required_output_names p = name :: names
             /\ input_element_cnt_of (input_names p) (input_shape_dims p)
                = Some cnt
             /\ out_requests (output_context p')
                = out_requests (output_context p)
                    ++ [{| req_name := name;
                           req_shape :=
                             if decide (max_batch_size ctx = 0)
                             then [cnt] else [1; cnt];
                           req_byte_size := 4 |}]).
Proof.
  intros Hex Hp.
  destruct (Execute_payloadwise
    (fun _ p _ p' =>
       out_requests (output_context p') = out_requests (output_context p)
       \/ exists name names cnt,
            required_output_names p = name :: names
            /\ input_element_cnt_of (input_names p) (input_shape_dims p)
               = Some cnt
            /\ out_requests (output_context p')
               = out_requests (output_context p)
                   ++ [{| req_name := name;
                          req_shape :=
                            if decide (max_batch_size ctx = 0)
                            then [cnt] else [1; cnt];
                          req_byte_size := 4 |}])
    ctx ps r j p) as (p' & Hp' & H);
    [by left| |done|done|by exists p'].
  intros a a' p' Hbody.
  apply Execute_payload_inv in Hbody
    as [(_ & Ho & _)|[(_ & Ho & _)|(b & v & cnt & q & _ & _ & _ & Hcnt & ->
                                    & _ & Ho & Hn)]];
    [left; by rewrite Ho..|].
  destruct (write_output_inv (max_batch_size ctx) cnt v q)
    as [[-> _]|(name & names & _ & Hnames & Hreq & _)];
    [left; by rewrite Ho|].
  right. exists name, names, cnt. rewrite <- Hn, <- Ho. by repeat split.
Qed.

(** X12: what [Execute] writes to an output buffer is the accumulator of the
    slot: when the accumulators are 32-bit values and a call changes the
    bytes written for a payload, these bytes are the four bytes of the
    accumulator the call leaves at the slot of the payload, and read back
    as an [int32_t] they give that accumulator. *)
Theorem Execute_writes_accumulator (ctx : Context) (ps : list CustomPayload)
    (r : ExecuteResult) (j : nat) (p : CustomPayload) :
  Forall is_int32 (accumulator_ ctx) ->
  Execute ctx ps = Some r ->
  ps !! j = Some p ->
  exists p',
    exec_payloads r !! j = Some p'
    /\ (out_written (output_context p') = out_written (output_context p)
        \/ exists v,
             accumulator_ (exec_context r) !! j = Some v
             /\ out_written (output_context p') = Some (bytes_of_int32 v)
             /\ decode_int32s (bytes_of_int32 v) = [v]).
Proof.
  intros Hall Hex Hp.
  destruct (Execute_payloadwise
    (fun o p o' p' =>
       (forall a, o = Some a -> is_int32 a) ->
       out_written (output_context p') = out_written (output_context p)
       \/ exists v,
            o' = Some v
            /\ out_written (output_context p') = Some (bytes_of_int32 v)
            /\ decode_int32s (bytes_of_int32 v) = [v])
    ctx ps r j p) as (p' & Hp' & H); [by left| |done|done|].
  - intros a a' p' Hbody Hint.
    apply Execute_payload_inv in Hbody
      as [(_ & Ho & _)|[(_ & Ho & _)|(b & v & cnt & q & Hb & Hv & Hrange & _
                                      & -> & _ & Ho & _)]];
      [left; by rewrite Ho..|].
    cbn in Hb, Hv. simplify_eq.
    destruct (write_output_inv (max_batch_size ctx) cnt v q)
      as [[-> _]|(name & names & _ & _ & _ & Hans)];
      [left; by rewrite Ho|].
    destruct (out_answer (output_context q));
      [left; rewrite <- Ho; apply Hans..|].
    right. exists v. split; [done|]. split; [apply Hans|].
    rewrite int32_of_bytes_of_int32, wrap_int32_id; [done|].
    apply Hrange. by apply Hint.
  - exists p'. split; [done|]. apply H.
    intros a Ha. rewrite Forall_lookup in Hall. by eapply Hall.
Qed.

(** ** Context::Execute: the state machine on any payload *)

Lemma length_decode_int32s (n : nat) :
  forall buf : list byte,
  length buf = (4 * n)%nat -> length (decode_int32s buf) = n.
Proof.
  induction n as [|n IH]; intros buf Hlen.
  - by destruct buf.
  - destruct buf as [|b0 [|b1 [|b2 [|b3 rest]]]]; simpl in Hlen; try lia.
    cbn [decode_int32s length]. f_equal. apply IH. lia.
Qed.

(** The INPUT vector of a payload that declares [cnt] elements, once it is
    assembled, holds [cnt] elements. *)
Lemma assembled_input_length (src : list pull) (cnt : Z) (ib : list byte)
    (rest : list pull) :
  0 <= cnt ->
  cnt * 4 < 2 ^ 64 ->
  chunks_fit (cnt * 4) src = true ->
  GetInputTensor src (wrap_uint64 (cnt * batch1_byte_size)) []
    = Some (Success, ib, rest) ->
  length ib = (4 * Z.to_nat cnt)%nat.
Proof.
  intros Hcnt Hmax Hfit Hget.
  assert (Hw : wrap_uint64 (cnt * batch1_byte_size) = cnt * 4).
  { unfold wrap_uint64, batch1_byte_size. apply Z.mod_small. lia. }
  rewrite Hw in Hget.
  apply GetInputTensor_length_bound in Hget as [_ Heq]; [|lia|done].
  cbn in Heq. specialize (Heq eq_refl). lia.
Qed.

(** X13: a step whose READY value is 0 is ignored, whatever START and INPUT
    hold, once the three inputs are assembled: the loop body keeps the
    store, the error code and the output of the payload, and only leaves
    the sources of the payload pulled. *)
Theorem Execute_payload_not_ready (mbs : Z) (pidx : nat) (accs : list Z)
    (p : CustomPayload) (cnt : Z) (sb rb ib : list byte)
    (s1 s2 s3 : list pull) :
  batch_size p = 1 ->
  input_element_cnt_of (input_names p) (input_shape_dims p) = Some cnt ->
  GetInputTensor (input_source p "START") batch1_byte_size []
    = Some (Success, sb, s1) ->
  GetInputTensor (input_source p "READY") batch1_byte_size []
    = Some (Success, rb, s2) ->
  GetInputTensor (input_source p "INPUT")
      (wrap_uint64 (cnt * batch1_byte_size)) []
    = Some (Success, ib, s3) ->
  read_int32 rb 0 = Some 0 ->
  Execute_payload mbs pidx accs p
  = Some (accs,
          pulled (pulled (pulled p "START" s1) "READY" s2) "INPUT" s3).
Proof.
  intros Hb Hcnt H1 H2 H3 Hready. rewrite Execute_payload_unfold.
  rewrite decide_True by done. rewrite Hcnt. simpl.
  rewrite H1, H2, H3. simpl. by apply sequence_step_not_ready.
Qed.

(** X14: a step with READY non-zero and START 0 adds the INPUT to the
    accumulator of its slot, however the INPUT is cut into chunks: for a
    payload that declares [cnt] elements and whose three inputs are
    assembled, the loop body replaces the accumulator [a] of the slot by the
    32-bit sum of [a] and of the [cnt] elements of the assembled vector. *)
Theorem Execute_payload_adds (mbs : Z) (pidx : nat) (accs : list Z)
    (p : CustomPayload) (cnt : Z) (sb rb ib : list byte)
    (s1 s2 s3 : list pull) (ready0 a : Z) :
  batch_size p = 1 ->
  input_element_cnt_of (input_names p) (input_shape_dims p) = Some cnt ->
  0 <= cnt ->
  cnt * 4 < 2 ^ 64 ->
  chunks_fit (cnt * 4) (input_source p "INPUT") = true ->
  GetInputTensor (input_source p "START") batch1_byte_size []
    = Some (Success, sb, s1) ->
  GetInputTensor (input_source p "READY") batch1_byte_size []
    = Some (Success, rb, s2) ->
  GetInputTensor (input_source p "INPUT")
      (wrap_uint64 (cnt * batch1_byte_size)) []
    = Some (Success, ib, s3) ->
  read_int32 rb 0 = Some ready0 ->
  ready0 <> 0 ->
  read_int32 sb 0 = Some 0 ->
  accs !! pidx = Some a ->
  is_int32 a ->
  length (decode_int32s ib) = Z.to_nat cnt
  /\ exists p',
       Execute_payload mbs pidx accs p
       = Some (<[pidx := wrap_int32 (a + sum_list (decode_int32s ib))]> accs,
               p').
Proof.
  intros Hb Hcnt H0 Hmax Hfit H1 H2 H3 Hready Hnz Hstart Ha Hint.
  pose proof (assembled_input_length _ _ _ _ H0 Hmax Hfit H3) as Hlen.
  split; [by apply length_decode_int32s|].
  eexists. rewrite Execute_payload_unfold.
  rewrite decide_True by done. rewrite Hcnt. simpl.
  rewrite H1, H2, H3. simpl.
  rewrite <- (Z2Nat.id cnt) at 1 by done.
  by erewrite sequence_step_continue.
Qed.

(** X15: a step with READY and START non-zero and an INPUT of at least one
    element starts the sequence over, however the INPUT is cut into chunks:
    the loop body replaces the accumulator of the slot, whatever it was, by
    the 32-bit sum of the [cnt] elements of the assembled vector. *)
Theorem Execute_payload_starts (mbs : Z) (pidx : nat) (accs : list Z)
    (p : CustomPayload) (cnt : Z) (sb rb ib : list byte)
    (s1 s2 s3 : list pull) (ready0 start0 a : Z) :
  batch_size p = 1 ->
  input_element_cnt_of (input_names p) (input_shape_dims p) = Some cnt ->
  0 < cnt ->
  cnt * 4 < 2 ^ 64 ->
  chunks_fit (cnt * 4) (input_source p "INPUT") = true ->
  GetInputTensor (input_source p "START") batch1_byte_size []
    = Some (Success, sb, s1) ->
  GetInputTensor (input_source p "READY") batch1_byte_size []
    = Some (Success, rb, s2) ->
  GetInputTensor (input_source p "INPUT")
      (wrap_uint64 (cnt * batch1_byte_size)) []
    = Some (Success, ib, s3) ->
  read_int32 rb 0 = Some ready0 ->
  ready0 <> 0 ->
  read_int32 sb 0 = Some start0 ->
  start0 <> 0 ->
  accs !! pidx = Some a ->
  length (decode_int32s ib) = Z.to_nat cnt
  /\ exists p',
       Execute_payload mbs pidx accs p
       = Some (<[pidx := wrap_int32 (sum_list (decode_int32s ib))]> accs, p').
Proof.
  intros Hb Hcnt H0 Hmax Hfit H1 H2 H3 Hready Hnz Hstart Hsz Ha.
  assert (Hlen : length ib = (4 * Z.to_nat cnt)%nat)
    by (eapply assembled_input_length; [lia|done..]).
  split; [by apply length_decode_int32s|].
  eexists. rewrite Execute_payload_unfold.
  rewrite decide_True by done. rewrite Hcnt. simpl.
  rewrite H1, H2, H3. simpl.
  rewrite <- (Z2Nat.id cnt) at 1 by lia.
  erewrite sequence_step_start; [done..|lia|done].
Qed.

(** ** Successive calls *)

Lemma Execute_calls_continue_store (ls : list (list Z)) :
  forall (ctx : Context) (a : Z),
  accumulator_ ctx !! 0%nat = Some a ->
  is_int32 a ->
  Forall (timestep_ok 0) ls ->
  exists rs,
    Execute_calls ctx (map (fun l => [plain_timestep 0 1 l]) ls) = Some rs
    /\ length rs = length ls
    /\ forall k r, rs !! k = Some r ->
         exec_ret r = Success
         /\ accumulator_ (exec_context r) !! 0%nat
            = Some (wrap_int32 (a + sum_list (concat (take (S k) ls))))
         /\ emitted r
            = [Some (bytes_of_int32
                       (wrap_int32 (a + sum_list (concat (take (S k) ls)))))].
Proof.
  induction ls as [|l ls IH]; intros ctx a Ha Hint Hok.
  - exists []. by repeat split.
  - apply Forall_cons in Hok as [Hl Hok].
    destruct (Execute_ready_timestep ctx a 0 (wrap_int32 (a + sum_list l)) l)
      as (r & Hr & Hret & Hacc & Hem); [done|done|by right|].
    assert (Hslot : accumulator_ (exec_context r) !! 0%nat
                    = Some (wrap_int32 (a + sum_list l))).
    { rewrite Hacc. apply list_lookup_insert_eq.
      by apply lookup_lt_Some in Ha. }
    destruct (IH (exec_context r) (wrap_int32 (a + sum_list l)))
      as (rs & Hrs & Hlen & Hout); [done|apply wrap_int32_range|done|].
    exists (r :: rs). cbn [map Execute_calls]. rewrite Hr. simpl.
    rewrite Hrs. simpl. split; [done|]. split; [by rewrite Hlen|].
    intros [|k] r' Hk; simplify_eq/=.
    + by rewrite app_nil_r.
    + destruct (Hout k r' Hk) as (? & Hst & Hemk).
      rewrite Hst, Hemk, sum_list_app, wrap_int32_add_l, Z.add_assoc.
      done.
Qed.

(** X16: the running sum of a sequence.  At slot 0, a start step (START and
    READY non-zero) followed by steps with START 0 and READY 1, one call
    each, every step with an INPUT of at least one element and each tensor
    in one chunk: every call returns [Success], and after each step the
    accumulator of the slot and the value written to the output are the
    32-bit sum of all INPUT elements since and including the start step,
    whatever the accumulator held before. *)
Theorem Execute_calls_running_sum (ctx : Context) (a s : Z) (l0 : list Z)
    (ls : list (list Z)) :
  accumulator_ ctx !! 0%nat = Some a ->
  s <> 0 ->
  timestep_ok s l0 ->
  Forall (timestep_ok 0) ls ->
  exists r0 rs,
    Execute_calls ctx
      ([plain_timestep s 1 l0] :: map (fun l => [plain_timestep 0 1 l]) ls)
    = Some (r0 :: rs)
    /\ length rs = length ls
    /\ forall k r, (r0 :: rs) !! k = Some r ->
         exec_ret r = Success
         /\ accumulator_ (exec_context r) !! 0%nat
            = Some (wrap_int32 (sum_list (l0 ++ concat (take k ls))))
         /\ emitted r
            = [Some (bytes_of_int32
                       (wrap_int32 (sum_list (l0 ++ concat (take k ls)))))].
Proof.
  intros Ha Hs Hok0 Hok.
  destruct (Execute_ready_timestep ctx a s (wrap_int32 (sum_list l0)) l0)
    as (r0 & Hr0 & Hret & Hacc & Hem);
    [done|done|left; by destruct Hok0 as (_ & ? & _)|].
  assert (Hslot : accumulator_ (exec_context r0) !! 0%nat
                  = Some (wrap_int32 (sum_list l0))).
  { rewrite Hacc. apply list_lookup_insert_eq. by apply lookup_lt_Some in Ha. }
  destruct (Execute_calls_continue_store ls (exec_context r0)
              (wrap_int32 (sum_list l0)))
    as (rs & Hrs & Hlen & Hout); [done|apply wrap_int32_range|done|].
  exists r0, rs. cbn [Execute_calls]. rewrite Hr0. simpl. rewrite Hrs. simpl.
  do 2 (split; [done|]). intros [|k] r Hk; simplify_eq/=.
  - by rewrite app_nil_r.
  - destruct (Hout k r Hk) as (? & Hst & Hemk).
    by rewrite Hst, Hemk, sum_list_app, wrap_int32_add_l.
Qed.

(** X17: two steps that add compose to one: at slot 0, a step with START 0
    and READY 1 that brings [l1] followed by one that brings [l2] leaves the
    store, and writes out the value, that a single such step bringing
    [l1 ++ l2] does.  Both steps bring at least one element, each tensor in
    one chunk. *)
Theorem Execute_calls_add_composes (ctx : Context) (a : Z) (l1 l2 : list Z) :
  accumulator_ ctx !! 0%nat = Some a ->
  is_int32 a ->
  timestep_ok 0 l1 -> timestep_ok 0 l2 -> timestep_ok 0 (l1 ++ l2) ->
  exists r1 r2 r,
    Execute_calls ctx [[plain_timestep 0 1 l1]; [plain_timestep 0 1 l2]]
    = Some [r1; r2]
    /\ Execute_calls ctx [[plain_timestep 0 1 (l1 ++ l2)]] = Some [r]
    /\ accumulator_ (exec_context r2) = accumulator_ (exec_context r)
    /\ emitted r2 = emitted r.
Proof.
  intros Ha Hint Hok1 Hok2 Hok.
  destruct (Execute_ready_timestep ctx a 0 (wrap_int32 (a + sum_list l1)) l1)
    as (r1 & Hr1 & _ & Hacc1 & _); [done|done|by right|].
  destruct (Execute_ready_timestep (exec_context r1)
              (wrap_int32 (a + sum_list l1)) 0
              (wrap_int32 (a + sum_list (l1 ++ l2))) l2)
    as (r2 & Hr2 & _ & Hacc2 & Hem2); [|done| |].
  { rewrite Hacc1. apply list_lookup_insert_eq.
    by apply lookup_lt_Some in Ha. }
  { right. split; [done|]. split; [apply wrap_int32_range|].
    by rewrite sum_list_app, wrap_int32_add_l, Z.add_assoc. }
  destruct (Execute_ready_timestep ctx a 0
              (wrap_int32 (a + sum_list (l1 ++ l2))) (l1 ++ l2))
    as (r & Hr & _ & Hacc & Hem); [done|done|by right|].
  exists r1, r2, r. cbn [Execute_calls]. rewrite Hr1. simpl.
  rewrite Hr2, Hr. simpl. do 2 (split; [done|]).
  rewrite Hacc2, Hacc1, Hacc, Hem2, Hem. split; [|done].
  apply list_insert_insert_eq.
Qed.

(** ** CustomInstance::Create *)

Lemma Context_ctor_inv (stoi : string -> option Z) (name : string)
    (cfg : ModelConfig) (gpu : Z) (inst : SequenceInstance) :
  Context_ctor stoi name cfg gpu = Some inst ->
  model_config_ inst = cfg /\ gpu_device_ inst = gpu
  /\ instance_name inst = name
  /\ exists delay, context inst = Context_new (mc_max_batch_size cfg) delay.
Proof.
  unfold Context_ctor. intros H.
  destruct (match mc_parameters cfg !! _ with
            | None => _ | Some _ => _ end) as [delay|]; simplify_eq/=.
  repeat split. by exists delay.
Qed.

(** X18: when [Create] builds the instance, the code it returns is
    [Success] exactly when the instance is not bound to a GPU and the
    configuration is of the accepted kind. *)
Theorem Create_success_iff (CUSTOM_NO_GPU_DEVICE : Z)
    (stoi : string -> option Z) (name : string) (cfg : ModelConfig)
    (gpu : Z) (inst : SequenceInstance) (err : ErrorCode) :
  Create CUSTOM_NO_GPU_DEVICE stoi name cfg gpu = Some (inst, err) ->
  err = Success <-> gpu = CUSTOM_NO_GPU_DEVICE /\ config_accepted cfg.
Proof.
  unfold Create. intros H.
  destruct (Context_ctor stoi name cfg gpu) as [inst'|] eqn:Hctor;
    simplify_eq/=.
  destruct (Init CUSTOM_NO_GPU_DEVICE inst') as [err'|] eqn:Hinit;
    simplify_eq/=.
  apply Context_ctor_inv in Hctor as (<- & <- & _).
  rewrite <- Init_success_spec, Hinit. split; congruence.
Qed.

(** X19: [Create] hands over an instance unless the configuration has a
    parameter execute_delay_ms that [std::stoi] cannot convert; a
    configuration that [Init] refuses still gives an instance, with the
    code of the refusal. *)
Theorem Create_builds_iff (CUSTOM_NO_GPU_DEVICE : Z)
    (stoi : string -> option Z) (name : string) (cfg : ModelConfig)
    (gpu : Z) :
  Create CUSTOM_NO_GPU_DEVICE stoi name cfg gpu = None
  <-> exists string_value,
        mc_parameters cfg !! "execute_delay_ms"%string = Some string_value
        /\ stoi string_value = None.
Proof.
  unfold Create, Context_ctor.
  destruct (mc_parameters cfg !! "execute_delay_ms"%string) as [v|] eqn:Hv.
  - destruct (stoi v) as [d|] eqn:Hd; cbn.
    + match goal with |- context [Init ?n ?i] =>
        destruct (Init_total n i) as [e ->] end.
      split; [done|]. intros (v' & ? & ?). congruence.
    + split; [|done]. intros _. by exists v.
  - cbn.
    match goal with |- context [Init ?n ?i] =>
      destruct (Init_total n i) as [e ->] end.
    split; [done|]. by intros (v' & ? & ?).
Qed.

Lemma Execute_keeps_max_batch_size (ctx : Context) (ps : list CustomPayload)
    (r : ExecuteResult) :
  Execute ctx ps = Some r ->
  max_batch_size (exec_context r) = max_batch_size ctx.
Proof.
  unfold Execute. intros H. destruct (_ <? _)%nat; [by simplify_eq/=|].
  destruct (Execute_loop _ _ _ _) as [[accs' ps']|]; by simplify_eq/=.
Qed.

Lemma Execute_calls_invariant (I : Context -> Prop) :
  (forall ctx ps r, I ctx -> Execute ctx ps = Some r -> I (exec_context r)) ->
  forall (batches : list (list CustomPayload)) (ctx : Context)
         (rs : list ExecuteResult),
  I ctx -> Execute_calls ctx batches = Some rs ->
  Forall (fun r => I (exec_context r)) rs.
Proof.
  intros Hstep. induction batches as [|ps batches IH]; intros ctx rs Hctx Hrun.
  - simplify_eq/=. constructor.
  - cbn [Execute_calls] in Hrun.
    destruct (Execute ctx ps) as [r|] eqn:Hr; simplify_eq/=.
    destruct (Execute_calls (exec_context r) batches) as [rs'|] eqn:Hrs;
      simplify_eq/=.
    constructor; [by eapply Hstep|]. eapply IH; [|done]. by eapply Hstep.
Qed.

(** X20: the store of an instance never changes its shape.  The instance
    [Create] hands over has max(1, max batch size) accumulators, all zero,
    and after every call of any run of [Execute] on it the store still has
    that many accumulators, each of them a 32-bit value. *)
Theorem Create_store_invariant (CUSTOM_NO_GPU_DEVICE : Z)
    (stoi : string -> option Z) (name : string) (cfg : ModelConfig)
    (gpu : Z) (inst : SequenceInstance) (err : ErrorCode)
    (batches : list (list CustomPayload)) (rs : list ExecuteResult) :
  Create CUSTOM_NO_GPU_DEVICE stoi name cfg gpu = Some (inst, err) ->
  Execute_calls (context inst) batches = Some rs ->
  accumulator_ (context inst)
  = replicate (Z.to_nat (Z.max 1 (mc_max_batch_size cfg))) 0
  /\ Forall (fun r =>
               length (accumulator_ (exec_context r))
               = Z.to_nat (Z.max 1 (mc_max_batch_size cfg))
               /\ Forall is_int32 (accumulator_ (exec_context r))) rs.
Proof.
  unfold Create. intros Hcreate Hrun.
  destruct (Context_ctor stoi name cfg gpu) as [inst'|] eqn:Hctor;
    simplify_eq/=.
  destruct (Init CUSTOM_NO_GPU_DEVICE inst') as [err'|]; simplify_eq/=.
  apply Context_ctor_inv in Hctor as (_ & _ & _ & delay & Hctx).
  rewrite Hctx in *. split; [done|].
  pose (I := fun ctx : Context =>
               max_batch_size ctx = mc_max_batch_size cfg
               /\ store_sized ctx /\ Forall is_int32 (accumulator_ ctx)).
  assert (Hall : Forall (fun r => I (exec_context r)) rs).
  { eapply (Execute_calls_invariant I); [|..|exact Hrun].
    - intros ctx ps r (Hm & Hs & Hi) Hex. split; [|split].
      + by rewrite (Execute_keeps_max_batch_size _ _ _ Hex).
      + by eapply Execute_store_sized.
      + by eapply Execute_int32_store.
    - split; [done|]. split; [apply Context_new_sized|].
      cbn. apply Forall_replicate. unfold is_int32. lia. }
  eapply Forall_impl; [exact Hall|].
  intros r (Hm & Hs & Hi). unfold store_sized in Hs. by rewrite Hs, Hm.
Qed.

(** ** Instances of the further properties *)

Local Ltac int32_values :=
  unfold timestep_ok;
  repeat first [apply Forall_nil_2 | apply Forall_cons_2 | split];
  first [discriminate | unfold is_int32; cbn [length]; lia].

Lemma GetInputTensor_copies_whole_chunks_witness :
  exists cs,
    int32_tensor [1; 2] = [] ++ concat cs
    /\ chunks cs `prefix_of` chunks element_chunks ++ [PullNull]
    /\ [] `suffix_of` chunks element_chunks ++ [PullNull].
Proof.
  apply (GetInputTensor_copies_whole_chunks
           (chunks element_chunks ++ [PullNull]) 8 [] Success
           (int32_tensor [1; 2]) []).
  reflexivity.
Defined.

Lemma GetInputTensor_bounded_witness :
  Z.of_nat (length (int32_tensor [1; 2])) <= Z.of_nat (length (@nil byte)) + 8
  /\ (Success = Success ->
      Z.of_nat (length (int32_tensor [1; 2]))
      = Z.of_nat (length (@nil byte)) + 8).
Proof.
  apply (GetInputTensor_bounded (chunks element_chunks ++ [PullNull]) 8 []
           Success (int32_tensor [1; 2]) []);
    [lia | reflexivity | reflexivity].
Defined.

Lemma GetInputTensor_error_cases_readable_witness :
  exists cs c rest,
    chunks element_chunks ++ [PullChunk (int32_tensor [3])]
    = chunks cs ++ PullChunk c :: rest
    /\ GetInputTensor
         (chunks element_chunks ++ [PullChunk (int32_tensor [3])]) 8 []
       = Some (kInputSize, concat cs, rest).
Proof.
  apply (GetInputTensor_error_cases_readable
           (chunks element_chunks ++ [PullChunk (int32_tensor [3])]) 8);
    [lia | reflexivity | reflexivity |].
  exists element_chunks, (int32_tensor [3]), [].
  split; [reflexivity|]. vm_compute. by split.
Defined.

Lemma GetInputTensor_refuses_overflowing_chunk_witness :
  GetInputTensor
    (chunks element_chunks ++ PullChunk (int32_tensor [3]) :: [PullNull])
    8 []
  = Some (kInputSize, [] ++ concat element_chunks, [PullNull]).
Proof.
  apply (GetInputTensor_refuses_overflowing_chunk element_chunks
           (int32_tensor [3]) [PullNull] 8 []);
    [reflexivity | simpl; lia | vm_compute; discriminate
    | vm_compute; by split].
Defined.

Lemma chunk_boundaries_readable_witness :
  GetInputTensor (chunks element_chunks ++ PullNull :: [])
    (2 * batch1_byte_size) []
    = Some (Success, concat element_chunks, [])
  /\ GetInputTensor (chunks [int32_tensor [1; 2]] ++ PullNull :: [])
       (2 * batch1_byte_size) []
     = Some (Success, concat element_chunks, [])
  /\ forall (mbs : Z) (pidx : nat) (accs : list Z) (p : CustomPayload),
       input_element_cnt_of (input_names p) (input_shape_dims p) = Some 2 ->
       outcome (Execute_payload mbs pidx accs
                  (pulled p "INPUT" (chunks element_chunks ++ PullNull :: [])))
       = outcome (Execute_payload mbs pidx accs
                    (pulled p "INPUT"
                       (chunks [int32_tensor [1; 2]] ++ PullNull :: []))).
Proof.
  apply (chunk_boundaries_readable element_chunks [int32_tensor [1; 2]] [] 2);
    [lia | reflexivity | reflexivity | reflexivity | reflexivity
    | reflexivity].
Defined.

Lemma GetInputTensor_readable_defined_witness :
  is_Some (GetInputTensor (chunks element_chunks ++ [PullNull]) 8 []).
Proof.
  apply (GetInputTensor_readable_defined (chunks element_chunks ++ [PullNull])
           8 []).
  reflexivity.
Defined.

Lemma GetInputTensor_short_chunk_no_result_witness :
  GetInputTensor (chunks element_chunks ++ PullChunk [] :: [PullNull]) 8 []
  = None.
Proof.
  apply (GetInputTensor_short_chunk_no_result element_chunks [] [PullNull]
           8 []);
    [reflexivity | vm_compute; split; [discriminate | reflexivity]
    | simpl; lia].
Defined.

Lemma Execute_keeps_other_slots_witness :
  exists r,
    Execute (Context_new 4 None) mixed_batch = Some r
    /\ length (accumulator_ (exec_context r))
       = length (accumulator_ (Context_new 4 None))
    /\ forall j, (length mixed_batch <= j)%nat ->
         accumulator_ (exec_context r) !! j
         = accumulator_ (Context_new 4 None) !! j.
Proof.
  eexists. split; [vm_compute; reflexivity|].
  apply (Execute_keeps_other_slots (Context_new 4 None) mixed_batch).
  vm_compute. reflexivity.
Defined.

Lemma Execute_keeps_error_witness :
  exists r,
    Execute (Context_new 4 None) [failed_timestep] = Some r
    /\ exists p',
         exec_payloads r !! 0%nat = Some p'
         /\ error_code p' <> Success
         /\ output_context p' = output_context failed_timestep.
Proof.
  eexists. split; [vm_compute; reflexivity|].
  apply (Execute_keeps_error (Context_new 4 None) [failed_timestep]
           _ 0%nat failed_timestep);
    [vm_compute; reflexivity | reflexivity | vm_compute; discriminate].
Defined.

Lemma Execute_no_output_asked_witness :
  exists r,
    Execute (Context_new 4 None) [silent_timestep] = Some r
    /\ exists p',
         exec_payloads r !! 0%nat = Some p'
         /\ output_context p' = output_context silent_timestep.
Proof.
  eexists. split; [vm_compute; reflexivity|].
  apply (Execute_no_output_asked (Context_new 4 None) [silent_timestep]
           _ 0%nat silent_timestep);
    [vm_compute; reflexivity | reflexivity | reflexivity].
Defined.

Lemma Execute_one_output_request_witness :
  exists r,
    Execute (Context_new 4 None) mixed_batch = Some r
    /\ exists p',
         exec_payloads r !! 0%nat = Some p'
         /\ (out_requests (output_context p')
             = out_requests (output_context (plain_timestep 1 1 [2; 3; 4]))
             \/ exists name names cnt,
                  required_output_names (plain_timestep 1 1 [2; 3; 4])
                  = name :: names
                  /\ input_element_cnt_of
                       (input_names (plain_timestep 1 1 [2; 3; 4]))
                       (input_shape_dims (plain_timestep 1 1 [2; 3; 4]))
                     = Some cnt
                  /\ out_requests (output_context p')
                     = out_requests
                         (output_context (plain_timestep 1 1 [2; 3; 4]))
                         ++ [{| req_name := name;
                                req_shape :=
                                  if decide
                                       (max_batch_size (Context_new 4 None)
                                        = 0)
                                  then [cnt] else [1; cnt];
                                req_byte_size := 4 |}]).
Proof.
  eexists. split; [vm_compute; reflexivity|].
  apply (Execute_one_output_request (Context_new 4 None) mixed_batch
           _ 0%nat (plain_timestep 1 1 [2; 3; 4]));
    [vm_compute; reflexivity | reflexivity].
Defined.

Lemma Execute_writes_accumulator_witness :
  exists r,
    Execute (Context_new 4 None) mixed_batch = Some r
    /\ exists p',
         exec_payloads r !! 0%nat = Some p'
         /\ (out_written (output_context p')
             = out_written (output_context (plain_timestep 1 1 [2; 3; 4]))
             \/ exists v,
                  accumulator_ (exec_context r) !! 0%nat = Some v
                  /\ out_written (output_context p')
                     = Some (bytes_of_int32 v)
                  /\ decode_int32s (bytes_of_int32 v) = [v]).
Proof.
  eexists. split; [vm_compute; reflexivity|].
  apply (Execute_writes_accumulator (Context_new 4 None) mixed_batch
           _ 0%nat (plain_timestep 1 1 [2; 3; 4])).
  - cbn. int32_values.
  - vm_compute. reflexivity.
  - reflexivity.
Defined.

Lemma Execute_payload_not_ready_witness :
  Execute_payload 4 1 [5; 6] (plain_timestep 1 0 [7; 7])
  = Some ([5; 6],
          pulled (pulled (pulled (plain_timestep 1 0 [7; 7]) "START" [])
                    "READY" []) "INPUT" []).
Proof.
  apply (Execute_payload_not_ready 4 1 [5; 6] (plain_timestep 1 0 [7; 7]) 2
           (int32_tensor [1]) (int32_tensor [0]) (int32_tensor [7; 7]));
    reflexivity.
Defined.

Lemma Execute_payload_adds_witness :
  length (decode_int32s (concat element_chunks)) = Z.to_nat 2
  /\ exists p',
       Execute_payload 4 1 [5; 6] (chunked_timestep 0)
       = Some (<[1%nat := wrap_int32
                            (6 + sum_list
                                   (decode_int32s (concat element_chunks)))]>
                 [5; 6], p').
Proof.
  apply (Execute_payload_adds 4 1 [5; 6] (chunked_timestep 0) 2
           (int32_tensor [0]) (int32_tensor [1]) (concat element_chunks)
           [] [] [] 1 6);
    first [reflexivity | lia | unfold is_int32; lia].
Defined.

Lemma Execute_payload_starts_witness :
  length (decode_int32s (concat element_chunks)) = Z.to_nat 2
  /\ exists p',
       Execute_payload 4 1 [5; 6] (chunked_timestep 1)
       = Some (<[1%nat := wrap_int32
                            (sum_list
                               (decode_int32s (concat element_chunks)))]>
                 [5; 6], p').
Proof.
  apply (Execute_payload_starts 4 1 [5; 6] (chunked_timestep 1) 2
           (int32_tensor [1]) (int32_tensor [1]) (concat element_chunks)
           [] [] [] 1 1 6);
    first [reflexivity | lia].
Defined.

Lemma Execute_calls_running_sum_witness :
  exists r0 rs,
    Execute_calls (Context_new 4 None)
      ([plain_timestep 1 1 [2; 3; 4]]
         :: map (fun l => [plain_timestep 0 1 l]) [[1; 1; 1]; [-10]])
    = Some (r0 :: rs)
    /\ length rs = length [[1; 1; 1]; [-10]]
    /\ forall k r, (r0 :: rs) !! k = Some r ->
         exec_ret r = Success
         /\ accumulator_ (exec_context r) !! 0%nat
            = Some (wrap_int32
                      (sum_list
                         ([2; 3; 4] ++ concat (take k [[1; 1; 1]; [-10]]))))
         /\ emitted r
            = [Some (bytes_of_int32
                       (wrap_int32
                          (sum_list
                             ([2; 3; 4]
                                ++ concat (take k [[1; 1; 1]; [-10]])))))].
Proof.
  apply (Execute_calls_running_sum (Context_new 4 None) 0 1 [2; 3; 4]
           [[1; 1; 1]; [-10]]);
    first [reflexivity | lia | discriminate | int32_values].
Defined.

Lemma Execute_calls_add_composes_witness :
  exists r1 r2 r,
    Execute_calls (Context_new 4 None)
      [[plain_timestep 0 1 [1; 2]]; [plain_timestep 0 1 [3]]]
    = Some [r1; r2]
    /\ Execute_calls (Context_new 4 None) [[plain_timestep 0 1 ([1; 2] ++ [3])]]
       = Some [r]
    /\ accumulator_ (exec_context r2) = accumulator_ (exec_context r)
    /\ emitted r2 = emitted r.
Proof.
  apply (Execute_calls_add_composes (Context_new 4 None) 0 [1; 2] [3]);
    first [reflexivity | int32_values].
Defined.

Lemma Create_success_iff_witness :
  exists inst,
    Create (-1) (fun _ => None) "sequence" (sequence_config 4 (-1) ∅) (-1)
    = Some (inst, Success)
    /\ (Success = Success
        <-> -1 = -1 /\ config_accepted (sequence_config 4 (-1) ∅)).
Proof.
  eexists. split; [vm_compute; reflexivity|].
  eapply (Create_success_iff (-1) (fun _ => None) "sequence"
            (sequence_config 4 (-1) ∅) (-1)).
  vm_compute. reflexivity.
Defined.

Lemma Create_store_invariant_witness :
  exists inst rs,
    Create (-1) (fun _ => None) "sequence" (sequence_config 4 (-1) ∅) (-1)
    = Some (inst, Success)
    /\ Execute_calls (context inst) [mixed_batch; mixed_batch] = Some rs
    /\ accumulator_ (context inst)
       = replicate
           (Z.to_nat (Z.max 1 (mc_max_batch_size (sequence_config 4 (-1) ∅))))
           0
    /\ Forall (fun r =>
                 length (accumulator_ (exec_context r))
                 = Z.to_nat
                     (Z.max 1 (mc_max_batch_size (sequence_config 4 (-1) ∅)))
                 /\ Forall is_int32 (accumulator_ (exec_context r))) rs.
Proof.
  eexists _, _. split; [vm_compute; reflexivity|].
  split; [vm_compute; reflexivity|].
  apply (Create_store_invariant (-1) (fun _ => None) "sequence"
           (sequence_config 4 (-1) ∅) (-1) _ Success
           [mixed_batch; mixed_batch] _);
    vm_compute; reflexivity.
Defined.
